(** * rsacrypt: a shallow embedding of [rsacrypt.c] and its properties

    The development follows the source file function by function:
    [archbits], [bitsize], [ab_mod_n], [is_prime], [find_inverse],
    [check_gcd], [generate_keys], [readbits], [writebits], [encrypt_file],
    [decrypt_file] and [find_next_prime].

    Conventions of the embedding (the program is built for Linux with gcc,
    [sizeof(unsigned) = 4] is checked by [archbits]; we fix the LP64
    little-endian data model of that platform):
    - [unsigned] is a [Z] in [0, 2^32), every operation reduced by [u32];
    - [int] is a [Z] in [-2^31, 2^31), every operation reduced by [i32]
      (two's complement wrap-around, which is what gcc produces);
    - [unsigned long long], [size_t] are reduced by [u64]; [off_t] by [i64];
    - a buffer is a [list Z] of bytes, a pointer into it is an index, and an
      access outside of the buffer has no defined result ([None]);
    - [malloc] does not clear memory: the previous contents of a fresh block
      are a parameter of the functions that allocate;
    - a [while] loop is run by [while], a bounded iteration that leaves the
      loop as soon as the body does; each loop comes with the lemma that the
      bound is never reached. *)

From Stdlib Require Import ZArith Znumtheory Lia.
From Stdlib Require Import Zmod.ZmodInv.
From stdpp Require Import base option list numbers.

Local Open Scope Z_scope.

(** ** Machine integers *)

Module Int.

Definition u8 (x : Z) : Z := x mod 2^8.
Definition u32 (x : Z) : Z := x mod 2^32.
Definition u64 (x : Z) : Z := x mod 2^64.

(** Two's complement reading of the low [w] bits. *)
Definition signed (w : Z) (x : Z) : Z := (x + 2^(w-1)) mod 2^w - 2^(w-1).
Definition i32 (x : Z) : Z := signed 32 x.
Definition i64 (x : Z) : Z := signed 64 x.

Definition is_u8 (x : Z) : Prop := 0 <= x < 2^8.
Definition is_u32 (x : Z) : Prop := 0 <= x < 2^32.
Definition is_i32 (x : Z) : Prop := - 2^31 <= x < 2^31.

End Int.
Import Int.

(** ** Loops *)

Section Loops.
Context {St Res : Type}.
(** One round of a loop: [inl s] goes on with state [s], [inr r] leaves
    the loop with [r]. *)
Variable body : St -> St + Res.

Fixpoint iterate (k : nat) (s : St) : St + Res :=
  match k with
  | O => inl s
  | S k' => match body s with
            | inl s' => iterate k' s'
            | inr r => inr r
            end
  end.

(** The same iteration with a binary bound, so that a bound of [2^32]
    rounds costs nothing when the loop is left early. *)
Fixpoint run (p : positive) (s : St) : St + Res :=
  match p with
  | xH => body s
  | xO p' => match run p' s with
             | inl s' => run p' s'
             | inr r => inr r
             end
  | xI p' => match body s with
             | inl s1 => match run p' s1 with
                         | inl s2 => run p' s2
                         | inr r => inr r
                         end
             | inr r => inr r
             end
  end.

Definition while (bound : positive) (s : St) : option Res :=
  match run bound s with
  | inl _ => None
  | inr r => Some r
  end.
End Loops.

(** ** [archbits] and [bitsize] *)

Definition archbits : Z := 31.

(** [for (i = archbits(); i != 0; i--) if (number >> i) return i + 1;]
    with [i] counted down by structural recursion. *)
Fixpoint bitsize_loop (i : nat) (number : Z) : Z :=
  match i with
  | O => 0
  | S i' => if Z.shiftr number (Z.of_nat i) =? 0
            then bitsize_loop i' number
            else u32 (Z.of_nat i + 1)
  end.

Definition bitsize (number : Z) : Z :=
  bitsize_loop (Z.to_nat archbits) number.

(** ** [ab_mod_n] *)

(** The state of the loop: the [unsigned long long] variables [C] and [D]. *)
Record modexp_state := ModExp { me_C : Z; me_D : Z }.

(** One round for bit [i]; [1 << i] is an [int], converted to
    [unsigned long long] for the [&]. *)
Definition ab_mod_n_step (A B N : Z) (i : Z) (s : modexp_state) : modexp_state :=
  let C := u64 (me_C s * 2) in
  let D := u64 (me_D s * me_D s) mod N in
  if Z.land B (u64 (i32 (Z.shiftl 1 i))) =? 0
  then ModExp C D
  else ModExp (u64 (C + 1)) (u64 (D * A) mod N).

(** [for (i = archbits(); 1; i--) { ...; if (i == 0) break; }]: the rounds
    for the bits [i], [i-1], ..., [0]. *)
Fixpoint ab_mod_n_loop (A B N : Z) (i : nat) (s : modexp_state) : modexp_state :=
  let s' := ab_mod_n_step A B N (Z.of_nat i) s in
  match i with
  | O => s'
  | S i' => ab_mod_n_loop A B N i' s'
  end.

(** The accumulator [D] at the end of the loop, before it is narrowed. *)
Definition ab_mod_n_wide (a b n : Z) : Z :=
  me_D (ab_mod_n_loop a b n (Z.to_nat archbits) (ModExp 0 1)).

Definition ab_mod_n (a b n : Z) : Z := u32 (ab_mod_n_wide a b n).

(** ** [is_prime] *)

(** [maxdiv = ceil((unsigned) sqrt(p))]: the square root of a 32-bit value
    is computed in double precision, where it is exact enough for the
    truncation to [unsigned] to be the integer square root; [ceil] of an
    integer changes nothing. *)
Definition is_prime_body (p maxdiv : Z) (i : Z) : Z + Z :=
  if i <=? maxdiv then
    if p mod i =? 0 then inr 0 else inl (u32 (i + 1))
  else inr 1.

Definition is_prime (p : Z) : option Z :=
  while (is_prime_body p (Z.sqrt p)) (2^32) 2.

(** ** [find_inverse] *)

Definition find_inverse_body (d f : Z) (i : Z) : Z + Z :=
  if i <? f then
    if u32 (i * d) mod f =? 1 then inr i else inl (u32 (i + 1))
  else inr 0.

Definition find_inverse (d f : Z) : option Z :=
  while (find_inverse_body d f) (2^32) 1.

(** ** [check_gcd] *)

(** The six [int] variables that live across rounds. *)
Record gcd_state := Gcd {
  g_x1 : Z; g_x2 : Z; g_x3 : Z;
  g_y1 : Z; g_y2 : Z; g_y3 : Z
}.

(** One round of [while (y3 != 0)]. The result is an [unsigned]: [f + y2]
    is computed in [unsigned], [y2] alone is converted on return. The C
    division truncates towards zero ([Z.quot]). *)
Definition check_gcd_body (f : Z) (s : gcd_state) : gcd_state + Z :=
  if g_y3 s =? 0 then inr 0
  else if g_y3 s =? 1 then
    if g_y2 s <? 0 then inr (u32 (f + g_y2 s)) else inr (u32 (g_y2 s))
  else
    let q := i32 (Z.quot (g_x3 s) (g_y3 s)) in
    let t1 := i32 (g_x1 s - i32 (q * g_y1 s)) in
    let t2 := i32 (g_x2 s - i32 (q * g_y2 s)) in
    let t3 := i32 (g_x3 s - i32 (q * g_y3 s)) in
    inl (Gcd (g_y1 s) (g_y2 s) (g_y3 s) t1 t2 t3).

Definition check_gcd_init (d f : Z) : gcd_state :=
  Gcd 1 0 (i32 f) 0 1 (i32 d).

Definition check_gcd (d f : Z) : option Z :=
  while (check_gcd_body f) (2^32) (check_gcd_init d f).

(** ** [generate_keys] *)

Inductive error :=
| OverflowError          (* "the multiplication of p and q yields an integer too big" *)
| NoValidExponentError   (* "cannot calculate multiplicative reverse integer" *)
| CorruptFileError       (* "File is corrupted, cannot decrypt" *)
| NoPrimeError.          (* "Could not find a prime" *)

(** What a command does: it exits with success and a result, it exits with
    an error message, or it has no defined behaviour. *)
Inductive outcome (A : Type) :=
| Done (a : A)
| Fail (e : error)
| Undefined.
Arguments Done {A} a.
Arguments Fail {A} e.
Arguments Undefined {A}.

Record keypair := Keys { key_e : Z; key_n : Z; key_d : Z }.

(** [for (e = 2; e < f; e++) if ((d = check_gcd(e, f)) != 0) break;]
    The state is [(e, d)]; the loop is left with the final values of both. *)
Definition generate_keys_body (f : Z) (s : Z * Z) : Z * Z + option (Z * Z) :=
  let '(e, d) := s in
  if e <? f then
    match check_gcd e f with
    | Some d' => if d' =? 0 then inl (u32 (e + 1), d') else inr (Some (e, d'))
    | None => inr None
    end
  else inr (Some (e, d)).

Definition generate_keys (p q : Z) : outcome keypair :=
  let n := u32 (p * q) in
  if 32 <? bitsize p + bitsize q then Fail OverflowError
  else
    let f := u32 (u32 (p - 1) * u32 (q - 1)) in
    match while (generate_keys_body f) (2^32) (2, 0) with
    | Some (Some (e, d)) =>
        if e =? f then Fail NoValidExponentError else Done (Keys e n d)
    | _ => Undefined
    end.

(** ** [find_next_prime] *)

Definition find_next_prime_body (n : Z) : Z + outcome Z :=
  if u32 (n + 1) =? 0 then inr (Fail NoPrimeError)
  else
    match is_prime n with
    | Some 0 => inl (u32 (n + 2))
    | Some _ => inr (Done n)
    | None => inr Undefined
    end.

Definition find_next_prime (n : Z) : outcome Z :=
  let n := if Z.land n 1 =? 0 then Z.lor n 1 else n in
  match while find_next_prime_body (2^32) n with
  | Some r => r
  | None => Undefined
  end.

(** ** Buffers and bit cursors *)

(** A position in a buffer: the byte the pointer [*buf] is at, as an index
    into the buffer, and the bit [*bitpos] within that byte. *)
Record cursor := Cursor { cur_pos : nat; cur_bit : Z }.

(** Shifts of a 32-bit operand are defined for counts below 32 only. *)
Definition c_shl (x k : Z) : option Z :=
  if k <? 32 then Some (Z.shiftl x k) else None.
Definition c_shr (x k : Z) : option Z :=
  if k <? 32 then Some (Z.shiftr x k) else None.

(** Increment [bitpos]; when it reaches 8, reset it and step [buf] to the
    next byte. *)
Definition advance (c : cursor) : cursor :=
  let b := u32 (cur_bit c + 1) in
  if 8 <=? b then Cursor (S (cur_pos c)) 0 else Cursor (cur_pos c) b.

(** [readbits]: [n] counts the rounds; [byte >> bitpos], [& 1] and
    [<< counter] are computed in [int] and the bit is converted to
    [unsigned] for the [|=]. *)
Fixpoint readbits_loop (mem : list Z) (n : nat) (counter result : Z) (c : cursor)
  : option (Z * cursor) :=
  match n with
  | O => Some (result, c)
  | S n' =>
      byte ← mem !! cur_pos c;
      low ← c_shr byte (cur_bit c);
      bit ← c_shl (Z.land low 1) counter;
      readbits_loop mem n' (u32 (counter + 1)) (Z.lor result (u32 (i32 bit)))
                    (advance c)
  end.

Definition readbits (mem : list Z) (c : cursor) (n : Z) : option (Z * cursor) :=
  readbits_loop mem (Z.to_nat n) 0 0 c.

(** [writebits]: the bit is computed in [unsigned], or-ed into the byte
    under the cursor and stored back as an [unsigned char]. *)
Fixpoint writebits_loop (mem : list Z) (n : nat) (counter value : Z) (c : cursor)
  : option (list Z * cursor) :=
  match n with
  | O => Some (mem, c)
  | S n' =>
      byte ← mem !! cur_pos c;
      low ← c_shr value counter;
      bit ← c_shl (Z.land low 1) (cur_bit c);
      writebits_loop (<[cur_pos c := u8 (Z.lor byte (u32 bit))]> mem) n'
                     (u32 (counter + 1)) value (advance c)
  end.

Definition writebits (mem : list Z) (c : cursor) (n value : Z)
  : option (list Z * cursor) :=
  writebits_loop mem (Z.to_nat n) 0 value c.

(** ** Files and allocation *)

(** The bytes found in a fresh block of [size] bytes: whatever the allocator
    left there, [old i] for the byte at offset [i]. *)
Definition malloc (old : nat -> Z) (size : Z) : list Z :=
  (fun i => u8 (old i)) <$> seq 0 (Z.to_nat size).

(** A block that happens to be clear. *)
Definition zeroed : nat -> Z := fun _ => 0.

(** [read_file]: the length of the file and a buffer of [2 * sizeof(int)]
    more bytes than the file, which are left as allocated. An empty file
    returns before the allocation, and [*buf] is not set: no byte of it can
    be accessed. *)
Definition read_file (file : list Z) (old : nat -> Z) : list Z * Z :=
  let len := Z.of_nat (length file) in
  if len =? 0 then ([], 0)
  else (file ++ drop (length file) (malloc old (len + 8)), len).

(** The bytes of an [off_t] in memory, least significant first. *)
Fixpoint le_encode (k : nat) (x : Z) : list Z :=
  match k with
  | O => []
  | S k' => u8 x :: le_encode k' (Z.shiftr x 8)
  end.

Fixpoint le_decode (bytes : list Z) : Z :=
  match bytes with
  | [] => 0
  | b :: rest => b + 2^8 * le_decode rest
  end.

(** Load an [off_t] from the start of the buffer. *)
Definition load_off_t (mem : list Z) : option Z :=
  if 8 <=? Z.of_nat (length mem) then Some (i64 (le_decode (take 8 mem)))
  else None.

(** ** [encrypt_file] *)

(** The variables that change in the two block loops: the source cursor,
    the destination cursor and the contents of the destination buffer. *)
Record xfer := Xfer { x_src : cursor; x_dst : cursor; x_mem : list Z }.

(** [writebits(&dst, &dstbit, wbits, ab_mod_n(readbits(&src, &srcbit, rbits), k, n))] *)
Definition crypt_block (src : list Z) (rbits wbits k n : Z) (s : xfer) : option xfer :=
  '(v, c) ← readbits src (x_src s) rbits;
  '(mem, c') ← writebits (x_mem s) (x_dst s) wbits (ab_mod_n v k n);
  Some (Xfer c c' mem).

(** [while (text < buf + buflen)] *)
Definition encrypt_body (buf : list Z) (buflen srcbits destbits e n : Z) (s : xfer)
  : xfer + option xfer :=
  if Z.of_nat (cur_pos (x_src s)) <? buflen then
    match crypt_block buf srcbits destbits e n s with
    | Some s' => inl s'
    | None => inr None
    end
  else inr (Some s).

(** [old_src] and [old_dst] are the previous contents of the two blocks the
    command allocates. The result is the new contents of the file: the
    length of the original, then [dest_text - destbuf + 1] bytes of the
    destination buffer. *)
Definition encrypt_file (file : list Z) (old_src old_dst : nat -> Z) (e n : Z)
  : outcome (list Z) :=
  let '(buf, buflen) := read_file file old_src in
  let destbits := bitsize n in
  let srcbits := u32 (destbits - 1) in
  let extraspace := u32 (u64 (8 + Z.quot buflen srcbits)) in
  let destbuf := malloc old_dst (u64 (buflen + extraspace)) in
  match while (encrypt_body buf buflen srcbits destbits e n) (2^67)
              (Xfer (Cursor 0 0) (Cursor 0 0) destbuf) with
  | Some (Some s) =>
      let count := S (cur_pos (x_dst s)) in
      if decide (count <= length (x_mem s))%nat
      then Done (le_encode 8 buflen ++ take count (x_mem s))
      else Undefined
  | _ => Undefined
  end.

(** ** [decrypt_file] *)

(** [while (decrpt_dst <= endmark)] *)
Definition decrypt_body (buf : list Z) (endmark : nat) (srcbits dstbits d n : Z)
  (s : xfer) : xfer + option xfer :=
  if decide (cur_pos (x_dst s) <= endmark)%nat then
    match crypt_block buf srcbits dstbits d n s with
    | Some s' => inl s'
    | None => inr None
    end
  else inr (Some s).

(** The two [int] variables of the sanity check, and the check itself. *)
Definition lendiff (origfilelen buflen : Z) : Z :=
  i32 (u64 (u64 origfilelen - u64 (buflen - 8))).
Definition maxdiff (origfilelen dstbits : Z) : Z :=
  i32 (u64 (i64 (i64 (Z.quot origfilelen dstbits) + 1) + 8)).
Definition corrupted (origfilelen buflen dstbits : Z) : bool :=
  (origfilelen <? 0)
  || (lendiff origfilelen buflen <? i32 (- maxdiff origfilelen dstbits))
  || (maxdiff origfilelen dstbits <? lendiff origfilelen buflen).

Definition decrypt_file (file : list Z) (old_src old_dst : nat -> Z) (d n : Z)
  : outcome (list Z) :=
  let '(buf, buflen) := read_file file old_src in
  let srcbits := bitsize n in
  let dstbits := u32 (srcbits - 1) in
  match load_off_t buf with
  | None => Undefined
  | Some origfilelen =>
      let buf := drop 8 buf in
      if corrupted origfilelen buflen dstbits then Fail CorruptFileError
      else
        let decrpt_buf := malloc old_dst (u64 (origfilelen + 8)) in
        let endmark := Z.to_nat origfilelen in
        match while (decrypt_body buf endmark srcbits dstbits d n) (2^67)
                    (Xfer (Cursor 0 0) (Cursor 0 0) decrpt_buf) with
        | Some (Some s) => Done (take (Z.to_nat origfilelen) (x_mem s))
        | _ => Undefined
        end
  end.

(** ** The notions of the specification *)

(** The minimum number of bits needed to represent [x]: 0 for 0, and the
    index of the highest set bit plus one otherwise. *)
Definition bitlength (x : Z) : Z := if x =? 0 then 0 else Z.log2 x + 1.

(** [e] has a multiplicative inverse modulo [f]. *)
Definition invertible (e f : Z) : Prop := exists x, (x * e) mod f = 1 mod f.

(** * Properties *)

(** Linear arithmetic with the divisions and remainders of the goal turned
    into their defining equations first. *)
Ltac dlia := Z.to_euclidean_division_equations; lia.
Ltac dnia := Z.to_euclidean_division_equations; nia.

(** ** Machine integers *)


Lemma u64_range x : 0 <= u64 x < 2^64.
Proof. unfold u64. apply Z.mod_pos_bound. lia. Qed.

Lemma u8_range x : 0 <= u8 x < 2^8.
Proof. unfold u8. apply Z.mod_pos_bound. lia. Qed.

Lemma u32_small x : 0 <= x < 2^32 -> u32 x = x.
Proof. intros. unfold u32. apply Z.mod_small. lia. Qed.

Lemma u64_small x : 0 <= x < 2^64 -> u64 x = x.
Proof. intros. unfold u64. apply Z.mod_small. lia. Qed.

Lemma u8_small x : 0 <= x < 2^8 -> u8 x = x.
Proof. intros. unfold u8. apply Z.mod_small. lia. Qed.

Lemma i32_range x : - 2^31 <= i32 x < 2^31.
Proof.
  unfold i32, signed.
  pose proof (Z.mod_pos_bound (x + 2^(32-1)) (2^32)). lia.
Qed.

Lemma i32_small x : - 2^31 <= x < 2^31 -> i32 x = x.
Proof.
  intros. unfold i32, signed.
  rewrite Z.mod_small; lia.
Qed.

Lemma i64_small x : - 2^63 <= x < 2^63 -> i64 x = x.
Proof.
  intros. unfold i64, signed.
  rewrite Z.mod_small; lia.
Qed.

(** [i32] picks the representative of a class modulo [2^32]. *)
Lemma i32_eqm x : exists k, i32 x = x + k * 2^32.
Proof.
  unfold i32, signed.
  exists (- ((x + 2^(32-1)) / 2^32)).
  pose proof (Z.div_mod (x + 2^(32-1)) (2^32)). lia.
Qed.

Lemma i32_unique x y k : y = x + k * 2^32 -> - 2^31 <= y < 2^31 -> i32 x = y.
Proof.
  intros -> Hy.
  destruct (i32_eqm x) as [k' Hk']. pose proof (i32_range x). nia.
Qed.

(** ** Loops *)

Section LoopRules.
Context {St Res : Type}.
Variable body : St -> St + Res.

Lemma iterate_add a b s :
  iterate body (a + b) s =
  match iterate body a s with
  | inl s' => iterate body b s'
  | inr r => inr r
  end.
Proof.
  revert s. induction a as [|a IH]; intros s; simpl; [done|].
  destruct (body s); [apply IH|done].
Qed.

Lemma run_iterate p s : run body p s = iterate body (Pos.to_nat p) s.
Proof.
  revert s. induction p as [p IH|p IH|]; intros s.
  - rewrite Pos2Nat.inj_xI. simpl.
    destruct (body s) as [s1|r]; [|done].
    replace (Pos.to_nat p + (Pos.to_nat p + 0))%nat
      with (Pos.to_nat p + Pos.to_nat p)%nat by lia.
    rewrite iterate_add, <- IH.
    destruct (run body p s1); [apply IH|done].
  - rewrite Pos2Nat.inj_xO. simpl.
    replace (Pos.to_nat p + (Pos.to_nat p + 0))%nat
      with (Pos.to_nat p + Pos.to_nat p)%nat by lia.
    rewrite iterate_add, <- IH.
    destruct (run body p s); [apply IH|done].
  - simpl. destruct (body s); done.
Qed.

(** The rule for a loop with invariant [Inv] and a measure [mu] that every
    round decreases: the loop is left, with a result that satisfies what
    the leaving rounds establish. *)
Variable Inv : St -> Prop.
Variable Post : Res -> Prop.
Variable mu : St -> Z.
Hypothesis round : forall s, Inv s ->
  0 <= mu s /\
  match body s with
  | inl s' => Inv s' /\ mu s' < mu s
  | inr r => Post r
  end.

Lemma iterate_rule k s :
  Inv s -> mu s < Z.of_nat k -> exists r, iterate body k s = inr r /\ Post r.
Proof.
  revert s. induction k as [|k IH]; intros s HI Hk;
    destruct (round s HI) as [H0 H]; [lia|].
  simpl. destruct (body s) as [s'|r]; [|by eauto].
  apply IH; [tauto|lia].
Qed.

Lemma while_rule bound s :
  Inv s -> mu s < Z.pos bound -> exists r, while body bound s = Some r /\ Post r.
Proof.
  intros HI Hb. unfold while. rewrite run_iterate.
  destruct (iterate_rule (Pos.to_nat bound) s HI) as (r & -> & Hr); [lia|].
  eauto.
Qed.
End LoopRules.

(** ** [bitsize] *)

Lemma bitsize_loop_spec i x :
  (i <= 31)%nat -> 0 <= x < 2^(Z.of_nat i + 1) ->
  bitsize_loop i x = if x <? 2 then 0 else Z.log2 x + 1.
Proof.
  induction i as [|i IH]; intros Hi Hx.
  - simpl. change (2^(0+1)) with 2 in Hx.
    destruct (Z.ltb_spec x 2); [done|lia].
  - cbn [bitsize_loop].
    rewrite Z.shiftr_div_pow2 by lia.
    assert (0 < 2 ^ Z.of_nat (S i)) by (apply Z.pow_pos_nonneg; lia).
    destruct (Z.eqb_spec (x / 2 ^ Z.of_nat (S i)) 0) as [E|E].
    + apply IH; [lia|].
      apply Z.div_small_iff in E; [|lia].
      replace (Z.of_nat i + 1) with (Z.of_nat (S i)) by lia. lia.
    + assert (2 ^ Z.of_nat (S i) <= x).
      { destruct (Z.le_gt_cases (2 ^ Z.of_nat (S i)) x); [done|].
        contradict E. apply Z.div_small. lia. }
      assert (2 <= 2 ^ Z.of_nat (S i)).
      { change 2 with (2^1) at 1. apply Z.pow_le_mono_r; lia. }
      destruct (Z.ltb_spec x 2); [lia|].
      rewrite (Z.log2_unique x (Z.of_nat (S i))) by lia.
      apply u32_small. lia.
Qed.

(** For every 32-bit value but 1, [bitsize] is the number of bits of the
    value. *)
Lemma bitsize_spec x :
  0 <= x < 2^32 -> x <> 1 -> bitsize x = if x =? 0 then 0 else Z.log2 x + 1.
Proof.
  intros Hx H1. unfold bitsize.
  rewrite bitsize_loop_spec; [|unfold archbits; lia|exact Hx].
  destruct (Z.ltb_spec x 2), (Z.eqb_spec x 0); lia.
Qed.

Lemma bitsize_range x : 0 <= x < 2^32 -> bitsize x = 0 \/ 2 <= bitsize x <= 32.
Proof.
  intros Hx. unfold bitsize.
  rewrite bitsize_loop_spec; [|unfold archbits; lia|exact Hx].
  destruct (Z.ltb_spec x 2); [by left|right].
  pose proof (Z.log2_lt_pow2 x 32). pose proof (Z.log2_le_pow2 x 1). lia.
Qed.

(** For a value of at least 2, [x] lies between the two powers of two that
    [bitsize] names. *)
Lemma bitsize_bounds x :
  2 <= x < 2^32 -> 2 ^ (bitsize x - 1) <= x < 2 ^ bitsize x.
Proof.
  intros Hx. rewrite bitsize_spec by lia.
  destruct (Z.eqb_spec x 0); [lia|].
  replace (Z.log2 x + 1 - 1) with (Z.log2 x) by lia.
  pose proof (Z.log2_spec x). replace (Z.succ (Z.log2 x)) with (Z.log2 x + 1) in * by lia.
  lia.
Qed.

(** C6: the value 1 needs one bit (the index of its highest set bit plus
    one), but [bitsize] answers 0 for it: the loop stops before it looks at
    bit 0. *)
Theorem bitsize_one_is_zero : bitsize 1 = 0 /\ Z.log2 1 + 1 = 1 /\ 0 <= 1 < 2^32.
Proof. split; [reflexivity|split; [reflexivity|lia]]. Qed.

(** ** [ab_mod_n] *)

Lemma land_pow2 b i :
  0 <= i -> Z.land b (2^i) = if Z.testbit b i then 2^i else 0.
Proof.
  intros Hi. apply Z.bits_inj'. intros k Hk.
  rewrite Z.land_spec, Z.pow2_bits_eqb by lia.
  destruct (Z.eqb_spec i k) as [->|Hne].
  - destruct (Z.testbit b k); [by rewrite Z.pow2_bits_true|by rewrite Z.bits_0].
  - rewrite Bool.andb_false_r.
    destruct (Z.testbit b i); [by rewrite Z.pow2_bits_false|by rewrite Z.bits_0].
Qed.

(** The test [B & (1 << i)] looks at bit [i] of the exponent, also for
    [i = 31], where [1 << i] is the most negative [int] and its conversion
    to 64 bits has all the upper bits set. *)
Lemma exponent_bit_test b i :
  0 <= b < 2^32 -> 0 <= i <= 31 ->
  (Z.land b (u64 (i32 (Z.shiftl 1 i))) =? 0) = negb (Z.testbit b i).
Proof.
  intros Hb Hi.
  assert (E : Z.land b (u64 (i32 (Z.shiftl 1 i))) = Z.land b (2^i)).
  { destruct (Z.eq_dec i 31) as [->|Hne].
    - change (u64 (i32 (Z.shiftl 1 31))) with (Z.shiftl (Z.ones 33) 31).
      apply Z.bits_inj'. intros k Hk.
      rewrite !Z.land_spec, Z.shiftl_spec, (Z.pow2_bits_eqb 31 k) by lia.
      destruct (Z.lt_ge_cases k 32).
      + destruct (Z.eqb_spec 31 k) as [<-|].
        * reflexivity.
        * rewrite (Z.testbit_neg_r (Z.ones 33)) by lia. reflexivity.
      + replace (Z.testbit b k) with false; [reflexivity|].
        symmetry. destruct (Z.eq_dec b 0) as [->|]; [apply Z.bits_0|].
        apply Z.bits_above_log2; [lia|].
        assert (Z.log2 b < 32) by (apply Z.log2_lt_pow2; lia). lia.
    - rewrite Z.shiftl_1_l.
      assert (2^i < 2^31) by (apply Z.pow_lt_mono_r; lia).
      assert (0 < 2^i) by (apply Z.pow_pos_nonneg; lia).
      rewrite i32_small, u64_small; lia. }
  rewrite E, land_pow2 by lia.
  assert (0 < 2^i) by (apply Z.pow_pos_nonneg; lia).
  destruct (Z.testbit b i); simpl; [apply Z.eqb_neq; lia|reflexivity].
Qed.

Lemma div_pow2_bit b i :
  0 <= i -> b / 2^i = 2 * (b / 2^(i+1)) + Z.b2z (Z.testbit b i).
Proof.
  intros Hi.
  rewrite Z.testbit_spec' by lia.
  rewrite Z.pow_add_r, Z.pow_1_r by lia.
  assert (0 < 2^i) by (apply Z.pow_pos_nonneg; lia).
  rewrite <- Z.div_div by lia.
  apply Z.div_mod. lia.
Qed.

Section ModExp.
Variables a b n : Z.
Hypothesis Ha : 0 <= a < 2^32.
Hypothesis Hb : 0 <= b < 2^32.
Hypothesis Hn : 0 < n < 2^32.

(** What holds after the round for bit [i + 1]: the bits of [b] above [i]
    have been consumed. *)
Definition modexp_post (i : Z) (s : modexp_state) : Prop :=
  me_C s = b / 2^(i+1) /\ me_D s = a ^ (b / 2^(i+1)) mod n.

(** What the round for bit [i] needs: as above, but [D] may be not yet
    reduced, as it is on entry to the loop when [n = 1]. *)
Definition modexp_pre (i : Z) (s : modexp_state) : Prop :=
  me_C s = b / 2^(i+1) /\ me_D s mod n = a ^ (b / 2^(i+1)) mod n /\
  0 <= me_D s < 2^32.

Lemma modexp_post_pre i s : modexp_post i s -> modexp_pre i s.
Proof using Ha Hb Hn.
  intros [HC HD]. split; [exact HC|].
  pose proof (Z.mod_pos_bound (a ^ (b / 2^(i+1))) n ltac:(lia)).
  rewrite HD, Z.mod_mod by lia. split; [reflexivity|lia].
Qed.

Lemma ab_mod_n_step_spec i s :
  0 <= i <= 31 -> modexp_pre i s -> modexp_post (i - 1) (ab_mod_n_step a b n i s).
Proof using Ha Hb Hn.
  intros Hi (HC & HD & HDr). unfold modexp_post, ab_mod_n_step.
  replace (i - 1 + 1) with i by lia.
  rewrite exponent_bit_test by lia.
  set (h := b / 2^(i+1)) in *.
  assert (0 < 2^(i+1)) by (apply Z.pow_pos_nonneg; lia).
  assert (1 <= 2^i) by (pose proof (Z.pow_pos_nonneg 2 i); lia).
  assert (Hh : 0 <= h) by (apply Z.div_pos; lia).
  assert (Hhi : 0 <= b / 2^i < 2^32).
  { split; [apply Z.div_pos; lia|].
    apply Z.div_lt_upper_bound; nia. }
  pose proof (div_pow2_bit b i ltac:(lia)) as Hbit. fold h in Hbit.
  assert (Hsq : u64 (me_D s * me_D s) mod n = a ^ (2 * h) mod n).
  { rewrite u64_small by nia.
    rewrite Z.mul_mod, HD, <- Z.mul_mod by lia.
    rewrite <- Z.pow_add_r by lia. f_equal. f_equal. lia. }
  rewrite Hsq, HC.
  destruct (Z.testbit b i); simpl in Hbit |- *.
  - split.
    + rewrite (u64_small (h * 2)), u64_small; lia.
    + pose proof (Z.mod_pos_bound (a ^ (2 * h)) n ltac:(lia)).
      rewrite u64_small by nia.
      rewrite Z.mul_mod_idemp_l by lia.
      rewrite Hbit, Z.pow_add_r, Z.pow_1_r by lia. reflexivity.
  - split.
    + rewrite u64_small; lia.
    + rewrite Hbit, Z.add_0_r. reflexivity.
Qed.

Lemma ab_mod_n_loop_spec i s :
  (i <= 31)%nat -> modexp_pre (Z.of_nat i) s ->
  modexp_post (-1) (ab_mod_n_loop a b n i s).
Proof using Ha Hb Hn.
  revert s. induction i as [|i IH]; intros s Hi HI.
  - apply (ab_mod_n_step_spec 0 s); [lia|exact HI].
  - cbn [ab_mod_n_loop]. apply IH; [lia|].
    apply modexp_post_pre.
    replace (Z.of_nat i) with (Z.of_nat (S i) - 1) by lia.
    apply ab_mod_n_step_spec; [lia|exact HI].
Qed.

Lemma ab_mod_n_wide_spec : ab_mod_n_wide a b n = a ^ b mod n.
Proof using Ha Hb Hn.
  unfold ab_mod_n_wide.
  destruct (ab_mod_n_loop_spec (Z.to_nat archbits) (ModExp 0 1)) as [_ HD].
  - unfold archbits. lia.
  - unfold modexp_pre, archbits. simpl me_C. simpl me_D.
    replace (b / 2 ^ (Z.of_nat (Z.to_nat 31) + 1)) with 0.
    + rewrite Z.pow_0_r. split; [reflexivity|split; [reflexivity|lia]].
    + symmetry. apply Z.div_small. exact Hb.
  - rewrite HD. change (-1 + 1) with 0. rewrite Z.pow_0_r, Z.div_1_r. reflexivity.
Qed.
End ModExp.

(** C2: for 32-bit [a] and [b] and a modulus [n > 0], [ab_mod_n] is
    [a^b mod n] in exact arithmetic; the result is below [n], and the
    64-bit accumulator already holds it, so that narrowing it to 32 bits
    loses nothing. *)
Theorem ab_mod_n_correct a b n :
  0 <= a < 2^32 -> 0 <= b < 2^32 -> 0 < n < 2^32 ->
  ab_mod_n a b n = a ^ b mod n /\
  0 <= ab_mod_n a b n < n /\
  ab_mod_n a b n = ab_mod_n_wide a b n.
Proof.
  intros Ha Hb Hn.
  pose proof (ab_mod_n_wide_spec a b n Ha Hb Hn) as E.
  pose proof (Z.mod_pos_bound (a ^ b) n ltac:(lia)) as R.
  assert (ab_mod_n a b n = ab_mod_n_wide a b n) as W.
  { unfold ab_mod_n. rewrite E. apply u32_small. lia. }
  rewrite W, E. auto.
Qed.

Lemma ab_mod_n_correct_witness :
  ab_mod_n 1234 3 2582299 = 1234 ^ 3 mod 2582299 /\
  0 <= ab_mod_n 1234 3 2582299 < 2582299 /\
  ab_mod_n 1234 3 2582299 = ab_mod_n_wide 1234 3 2582299.
Proof. apply (ab_mod_n_correct 1234 3 2582299); lia. Defined.

(** ** [is_prime] and [find_next_prime] *)

(** Whether some [j] in [[2, m]] divides [p]. *)
Definition no_divisor_upto (p m : Z) : Prop :=
  forall j, 2 <= j <= m -> p mod j <> 0.

Lemma is_prime_spec p :
  0 <= p < 2^32 ->
  exists r, is_prime p = Some r /\
    ((r = 1 /\ no_divisor_upto p (Z.sqrt p)) \/
     (r = 0 /\ ~ no_divisor_upto p (Z.sqrt p))).
Proof.
  intros Hp.
  assert (Hs : 0 <= Z.sqrt p < 2^16).
  { split; [apply Z.sqrt_nonneg|].
    apply Z.sqrt_lt_square; lia. }
  apply (while_rule (is_prime_body p (Z.sqrt p))
           (fun i => 2 <= i <= Z.sqrt p + 1 /\ no_divisor_upto p (i - 1) \/
                     (i = 2 /\ Z.sqrt p < 2))
           _ (fun i => Z.sqrt p + 2 - i)).
  - intros i Hi. unfold is_prime_body.
    destruct (Z.leb_spec i (Z.sqrt p)) as [Hle|Hgt].
    + destruct Hi as [[Hi Hno]|[-> Hlt]]; [|lia].
      split; [lia|].
      destruct (Z.eqb_spec (p mod i) 0) as [E|E].
      * right. split; [reflexivity|]. intros H. apply (H i); [lia|exact E].
      * rewrite u32_small by lia. split; [|lia]. left. split; [lia|].
        intros j Hj. destruct (Z.eq_dec j i) as [->|]; [exact E|].
        apply Hno. lia.
    + split; [lia|]. left. split; [reflexivity|].
      destruct Hi as [[Hi Hno]|[-> Hlt]].
      * intros j Hj. apply Hno. lia.
      * intros j Hj. lia.
  - destruct (Z.le_gt_cases 2 (Z.sqrt p + 1)).
    + left. split; [lia|]. intros j Hj. lia.
    + right. lia.
  - change (Z.pos (2^32)) with (2^32). lia.
Qed.

(** Trial division up to the square root decides primality from 2 on. *)
Lemma no_divisor_prime p :
  2 <= p -> (no_divisor_upto p (Z.sqrt p) <-> Z.prime p).
Proof.
  intros Hp. pose proof (Z.sqrt_spec p ltac:(lia)) as Hs. cbv zeta in Hs.
  pose proof (Z.sqrt_nonneg p) as Hs0.
  split.
  - intros Hno. split; [lia|]. intros n Hn [m Hm].
    assert (1 < m) by nia.
    destruct (Z.le_gt_cases n (Z.sqrt p)) as [Hle|Hgt].
    + apply (Hno n); [lia|]. subst p. apply Z.mod_mul. lia.
    + assert (m <= Z.sqrt p).
      { destruct (Z.le_gt_cases m (Z.sqrt p)); [done|]. exfalso.
        unfold Z.succ in Hs.
        assert ((Z.sqrt p + 1) * (Z.sqrt p + 1) <= m * n)
          by (apply Z.mul_le_mono_nonneg; lia).
        lia. }
      apply (Hno m); [lia|]. subst p. rewrite Z.mul_comm. apply Z.mod_mul. lia.
  - intros [_ Hpr] j Hj Hmod.
    assert (Z.sqrt p * 2 <= Z.sqrt p * Z.sqrt p)
      by (apply Z.mul_le_mono_nonneg_l; lia).
    apply (Hpr j); [lia|].
    apply Z.mod_divide; [lia|exact Hmod].
Qed.

Lemma is_prime_correct p :
  2 <= p < 2^32 ->
  (is_prime p = Some 1 /\ Z.prime p) \/ (is_prime p = Some 0 /\ ~ Z.prime p).
Proof.
  intros Hp.
  destruct (is_prime_spec p ltac:(lia)) as (r & -> & [[-> H]|[-> H]]).
  - left. split; [reflexivity|]. apply no_divisor_prime; [lia|exact H].
  - right. split; [reflexivity|]. intros Hpr. apply H.
    apply no_divisor_prime; [lia|exact Hpr].
Qed.

(** The first candidate of the search: [n], made odd. *)
Definition first_candidate (n : Z) : Z :=
  if Z.land n 1 =? 0 then Z.lor n 1 else n.

Lemma first_candidate_spec n :
  0 <= n -> first_candidate n = if n mod 2 =? 0 then n + 1 else n.
Proof.
  intros Hn. unfold first_candidate.
  change 1 with (Z.ones 1) at 1. rewrite Z.land_ones by lia.
  change (2^1) with 2.
  destruct (Z.eqb_spec (n mod 2) 0) as [E|E]; [|reflexivity].
  assert (L : Z.land n 1 = 0).
  { change 1 with (Z.ones 1). rewrite Z.land_ones by lia. exact E. }
  rewrite <- Z.lxor_lor, <- Z.add_nocarry_lxor by exact L. reflexivity.
Qed.

Lemma not_prime_max_u32 : ~ Z.prime 4294967295.
Proof.
  intros [_ H]. apply (H 3); [lia|]. exists 1431655765. reflexivity.
Qed.

(** What the search from the odd candidate [n0] may answer. *)
Definition search_post (n0 : Z) (r : outcome Z) : Prop :=
  match r with
  | Done r =>
      Z.prime r /\ n0 <= r < 2^32 /\ r mod 2 = 1 /\
      forall c, n0 <= c < r -> c mod 2 = 1 -> ~ Z.prime c
  | Fail e =>
      e = NoPrimeError /\
      forall c, n0 <= c < 2^32 -> c mod 2 = 1 -> ~ Z.prime c
  | Undefined => False
  end.

Lemma find_next_prime_loop_spec n0 :
  3 <= n0 < 2^32 -> n0 mod 2 = 1 ->
  exists r, while find_next_prime_body (2^32) n0 = Some r /\ search_post n0 r.
Proof.
  intros Hn0 Hodd.
  apply (while_rule find_next_prime_body
           (fun m => n0 <= m < 2^32 /\ m mod 2 = 1 /\
                     forall c, n0 <= c < m -> c mod 2 = 1 -> ~ Z.prime c)
           _ (fun m => 2^32 - m)).
  - intros m (Hm & Hmo & Hbelow). split; [lia|].
    unfold find_next_prime_body.
    destruct (Z.eqb_spec (u32 (m + 1)) 0) as [E|E].
    + assert (m = 4294967295) as ->.
      { unfold u32 in E. 
        destruct (Z.eq_dec m 4294967295); [done|].
        rewrite Z.mod_small in E; lia. }
      split; [reflexivity|]. intros c Hc Hco.
      destruct (Z.eq_dec c 4294967295) as [->|]; [apply not_prime_max_u32|].
      apply Hbelow; [lia|exact Hco].
    + assert (m < 4294967295).
      { destruct (Z.eq_dec m 4294967295) as [->|]; [|lia].
        contradict E. reflexivity. }
      destruct (is_prime_correct m ltac:(lia)) as [[-> Hp]|[-> Hp]].
      * split; [exact Hp|]. split; [lia|]. split; [exact Hmo|exact Hbelow].
      * rewrite u32_small by dlia. split; [|lia].
        split; [dlia|]. split; [dlia|].
        intros c Hc Hco.
        destruct (Z.eq_dec c m) as [->|]; [exact Hp|].
        apply Hbelow; [dlia|exact Hco].
  - split; [lia|]. split; [exact Hodd|]. intros c Hc. lia.
  - change (Z.pos (2^32)) with (2^32). lia.
Qed.

(** From 2 on, the search is total and sound: it reports the first prime
    among the odd numbers from [first_candidate n] up, or fails when there
    is none below [2^32]. *)
Lemma find_next_prime_spec n :
  2 <= n < 2^32 -> search_post (first_candidate n) (find_next_prime n).
Proof.
  intros Hn. unfold find_next_prime. fold (first_candidate n).
  pose proof (first_candidate_spec n ltac:(lia)) as E.
  destruct (find_next_prime_loop_spec (first_candidate n)) as (r & -> & Hr).
  - rewrite E. destruct (Z.eqb_spec (n mod 2) 0); dlia.
  - rewrite E. destruct (Z.eqb_spec (n mod 2) 0); dlia.
  - exact Hr.
Qed.

(** C9: started at 1 (or at 0, which is made odd first), the search ends
    successfully and reports 1, which is not a prime: [is_prime] has no
    divisor to try for it. *)
Theorem find_next_prime_reports_one :
  find_next_prime 1 = Done 1 /\ find_next_prime 0 = Done 1 /\
  is_prime 1 = Some 1 /\ ~ Z.prime 1.
Proof.
  repeat split; try reflexivity.
  intros [H _]. lia.
Qed.

(** ** [check_gcd] *)

(** The arithmetic of one division step on a cross product. *)
Lemma cross_product_step x3 y3 a b q t m :
  0 <= a -> 0 <= b -> 2 <= y3 -> 0 <= q -> 0 <= t -> x3 = y3 * q + t ->
  x3 * b + y3 * a = m ->
  y3 * (a + q * b) + t * b = m /\ 0 <= q * b /\ 2 * (a + q * b) <= m.
Proof.
  intros Ha Hb Hy Hq Ht -> <-.
  assert (0 <= q * b) by (apply Z.mul_nonneg_nonneg; lia).
  assert (0 <= t * b) by (apply Z.mul_nonneg_nonneg; lia).
  assert (2 * (a + q * b) <= y3 * (a + q * b))
    by (apply Z.mul_le_mono_nonneg_r; lia).
  split; [ring|]. split; [lia|].
  replace ((y3 * q + t) * b + y3 * a) with (y3 * (a + q * b) + t * b) by ring.
  lia.
Qed.

Section CheckGcd.
Variables d f : Z.
Hypothesis Hd : 0 <= d < 2^31.
Hypothesis Hf : 1 < f < 2^31.

(** The invariant of the loop when the arguments fit an [int]. The
    coefficients alternate in sign ([sg] is the sign of [x1] and [y2]);
    with their magnitudes [a1], [a2] (of [x1], [x2]) and [b1], [b2] (of
    [y1], [y2]), two cross products stay equal to [d] and [f]: this bounds
    every intermediate value by the arguments. *)
Definition gcd_inv (s : gcd_state) : Prop :=
  exists sg a1 a2 b1 b2,
    (sg = 1 \/ sg = -1) /\ 0 <= a1 /\ 0 <= a2 /\ 0 <= b1 /\ 0 <= b2 /\
    g_x1 s = sg * a1 /\ g_x2 s = - sg * a2 /\
    g_y1 s = - sg * b1 /\ g_y2 s = sg * b2 /\
    2 <= g_x3 s < 2^31 /\ 0 <= g_y3 s < 2^31 /\
    g_x3 s * b2 + g_y3 s * a2 = f /\
    g_x3 s * b1 + g_y3 s * a1 = d /\
    g_x1 s * f + g_x2 s * d = g_x3 s /\
    g_y1 s * f + g_y2 s * d = g_y3 s.

(** What the function answers. *)
Definition gcd_post (r : Z) : Prop :=
  (Z.gcd d f = 1 /\ 0 < r < f /\ (r * d) mod f = 1) \/
  (Z.gcd d f <> 1 /\ r = 0).

Lemma gcd_inv_init : gcd_inv (check_gcd_init d f).
Proof using Hd Hf.
  unfold check_gcd_init. rewrite !i32_small by lia.
  exists 1, 1, 0, 0, 1. simpl. lia.
Qed.

Lemma gcd_round s :
  gcd_inv s ->
  0 <= g_y3 s /\
  match check_gcd_body f s with
  | inl s' => gcd_inv s' /\ g_y3 s' < g_y3 s
  | inr r => gcd_post r
  end.
Proof using Hd Hf.
  intros (sg & a1 & a2 & b1 & b2 & Hsg & Ha1 & Ha2 & Hb1 & Hb2 &
          Ex1 & Ex2 & Ey1 & Ey2 & Hx3 & Hy3 & J2 & J1 & Bx & By).
  split; [lia|]. unfold check_gcd_body.
  destruct (Z.eqb_spec (g_y3 s) 0) as [E0|N0].
  { (* the remainder vanished: [x3] divides both arguments *)
    right. split; [|reflexivity].
    rewrite E0, Z.mul_0_l, Z.add_0_r in J1, J2.
    intros G.
    assert (Hdiv : (g_x3 s | Z.gcd d f)).
    { apply Z.gcd_greatest; [exists b1|exists b2]; lia. }
    rewrite G in Hdiv. apply Z.divide_1_r_nonneg in Hdiv; lia. }
  destruct (Z.eqb_spec (g_y3 s) 1) as [E1|N1].
  { (* the remainder is 1: [y2] is an inverse, up to its sign *)
    rewrite E1, Z.mul_1_l in *.
    assert (Hb2f : 2 * b2 <= f).
    { assert (2 * b2 <= g_x3 s * b2)
        by (apply Z.mul_le_mono_nonneg_r; lia). lia. }
    assert (Hy2r : - f < g_y2 s < f) by (destruct Hsg; subst sg; lia).
    assert (G : Z.gcd d f = 1).
    { apply Z.coprime_Bezout. exists (g_y2 s), (g_y1 s). lia. }
    assert (M1 : (g_y2 s * d) mod f = 1).
    { replace (g_y2 s * d) with (1 + (- g_y1 s) * f) by lia.
      rewrite Z.mod_add by lia. apply Z.mod_small. lia. }
    assert (M2 : ((f + g_y2 s) * d) mod f = 1).
    { replace ((f + g_y2 s) * d) with (1 + (d - g_y1 s) * f) by lia.
      rewrite Z.mod_add by lia. apply Z.mod_small. lia. }
    destruct (Z.ltb_spec (g_y2 s) 0) as [Hneg|Hpos]; left.
    - rewrite u32_small by lia.
      split; [exact G|]. split; [lia|exact M2].
    - rewrite u32_small by lia.
      split; [exact G|]. split; [|exact M1].
      destruct (Z.eq_dec (g_y2 s) 0) as [Z0|]; [|lia].
      rewrite Z0 in By.
      assert (g_y1 s * f = 1) as Habs by lia.
      apply Z.mul_eq_1 in Habs. lia. }
  (* one more division *)
  assert (Hy2 : 2 <= g_y3 s) by lia.
  set (q := g_x3 s / g_y3 s).
  set (t3 := g_x3 s mod g_y3 s).
  assert (Hq : 0 <= q) by (apply Z.div_pos; lia).
  assert (Ht3 : 0 <= t3 < g_y3 s) by (apply Z.mod_pos_bound; lia).
  assert (Hdm : g_x3 s = g_y3 s * q + t3) by (apply Z.div_mod; lia).
  assert (Hquot : Z.quot (g_x3 s) (g_y3 s) = q)
    by (apply Z.quot_div_nonneg; lia).
  assert (Hq3 : 0 <= q * g_y3 s <= g_x3 s).
  { split; [apply Z.mul_nonneg_nonneg; lia|]. rewrite Z.mul_comm. lia. }
  assert (Hqq : q <= q * g_y3 s).
  { rewrite <- (Z.mul_1_r q) at 1. apply Z.mul_le_mono_nonneg_l; lia. }
  destruct (cross_product_step _ _ a2 b2 q t3 f Ha2 Hb2 Hy2 Hq
              ltac:(lia) Hdm J2) as (J2' & Hqb2 & Hb2').
  destruct (cross_product_step _ _ a1 b1 q t3 d Ha1 Hb1 Hy2 Hq
              ltac:(lia) Hdm J1) as (J1' & Hqb1 & Hb1').
  rewrite Hquot, (i32_small q) by lia.
  assert (P1 : q * g_y1 s = - sg * (q * b1)) by (rewrite Ey1; ring).
  assert (P2 : q * g_y2 s = sg * (q * b2)) by (rewrite Ey2; ring).
  assert (T1 : i32 (g_x1 s - i32 (q * g_y1 s)) = sg * (a1 + q * b1)).
  { rewrite P1.
    rewrite (i32_small (- sg * _)) by (destruct Hsg; subst sg; lia).
    replace (g_x1 s - - sg * (q * b1)) with (sg * (a1 + q * b1))
      by (rewrite Ex1; ring).
    apply i32_small. destruct Hsg; subst sg; lia. }
  assert (T2 : i32 (g_x2 s - i32 (q * g_y2 s)) = - sg * (a2 + q * b2)).
  { rewrite P2.
    rewrite (i32_small (sg * _)) by (destruct Hsg; subst sg; lia).
    replace (g_x2 s - sg * (q * b2)) with (- sg * (a2 + q * b2))
      by (rewrite Ex2; ring).
    apply i32_small. destruct Hsg; subst sg; lia. }
  assert (T3 : i32 (g_x3 s - i32 (q * g_y3 s)) = t3).
  { rewrite (i32_small (q * g_y3 s)) by lia.
    rewrite i32_small; lia. }
  rewrite T1, T2, T3. split; [|simpl; lia].
  exists (- sg), b1, b2, (a1 + q * b1), (a2 + q * b2). simpl.
  split; [lia|]. split; [lia|]. split; [lia|]. split; [lia|]. split; [lia|].
  split; [rewrite Ey1; ring|]. split; [rewrite Ey2; ring|].
  split; [ring|]. split; [ring|]. split; [lia|]. split; [lia|].
  split; [lia|]. split; [lia|]. split; [exact By|].
  rewrite Z.mul_add_distr_l, (Z.mul_add_distr_l (- sg)).
  replace t3 with (g_x3 s - q * g_y3 s) by lia.
  rewrite <- Bx, <- By at 1. rewrite Ex1, Ex2, Ey1, Ey2. ring.
Qed.

Lemma check_gcd_spec : exists r, check_gcd d f = Some r /\ gcd_post r.
Proof using Hd Hf.
  apply (while_rule (check_gcd_body f) gcd_inv gcd_post g_y3).
  - intros s Hs. apply gcd_round, Hs.
  - apply gcd_inv_init.
  - unfold check_gcd_init. simpl. rewrite i32_small by lia.
    change (Z.pos (2^32)) with (2^32). lia.
Qed.
End CheckGcd.

(** C3: the arguments are [unsigned], the computation is done in [int]:
    for [d = 2^32 - 1] and [f = 2], which are coprime and for which 1 is the
    inverse, [check_gcd] reads [d] as [-1] and answers 0, "no inverse". *)
Theorem check_gcd_misses_inverse :
  check_gcd 4294967295 2 = Some 0 /\
  Z.gcd 4294967295 2 = 1 /\ 1 < 2 /\ (1 * 4294967295) mod 2 = 1.
Proof. repeat split; reflexivity. Qed.

(** ** [find_inverse] *)

(** An inverse is unique among the residues. *)
Lemma inverse_unique d f r r' :
  1 < f -> 0 <= r < f -> 0 <= r' < f ->
  (r * d) mod f = 1 -> (r' * d) mod f = 1 -> r = r'.
Proof.
  intros Hf Hr Hr' E E'.
  assert (C : Z.coprime d f).
  { apply Z.coprime_Bezout. exists r, (- (r * d / f)).
    pose proof (Z.div_mod (r * d) f ltac:(lia)). lia. }
  assert (D : ((r - r') * d) mod f = 0).
  { rewrite Z.mul_sub_distr_r, Zminus_mod, E, E'. reflexivity. }
  apply Z.cong_mul_cancel_r_coprime in D; [|lia|exact C].
  apply Z.mod_divide in D; [|lia]. destruct D as [k Hk].
  assert (k = 0) by nia. lia.
Qed.

Section FindInverse.
Variables d f : Z.
Hypothesis Hd : 0 <= d.
Hypothesis Hf : 1 < f < 2^32.
(** No product of the scan leaves the 32 bits of an [unsigned]. *)
Hypothesis Hfit : (f - 1) * d < 2^32.

Definition scan_post (r : Z) : Prop :=
  (0 < r < f /\ (r * d) mod f = 1) \/
  (r = 0 /\ forall j, 0 < j < f -> (j * d) mod f <> 1).

Lemma find_inverse_spec : exists r, find_inverse d f = Some r /\ scan_post r.
Proof using Hd Hf Hfit.
  apply (while_rule (find_inverse_body d f)
           (fun i => 1 <= i <= f /\
                     forall j, 0 < j < i -> (j * d) mod f <> 1)
           scan_post (fun i => f - i)).
  - intros i [Hi Hno]. split; [lia|]. unfold find_inverse_body.
    destruct (Z.ltb_spec i f) as [Hlt|Hge].
    + rewrite (u32_small (i * d)) by nia.
      destruct (Z.eqb_spec ((i * d) mod f) 1) as [E|E].
      * left. split; [lia|exact E].
      * rewrite u32_small by lia. split; [|lia]. split; [lia|].
        intros j Hj. destruct (Z.eq_dec j i) as [->|]; [exact E|].
        apply Hno. lia.
    + right. split; [reflexivity|]. intros j Hj. apply Hno. lia.
  - split; [lia|]. intros j Hj. lia.
  - change (Z.pos (2^32)) with (2^32). lia.
Qed.
End FindInverse.

(** Where both functions compute without overflow, they agree. *)
Lemma check_gcd_find_inverse d f :
  0 <= d < 2^31 -> 1 < f < 2^31 -> (f - 1) * d < 2^32 ->
  check_gcd d f = find_inverse d f.
Proof.
  intros Hd Hf Hfit.
  destruct (check_gcd_spec d f Hd Hf) as (r & -> & Hr).
  destruct (find_inverse_spec d f ltac:(lia) ltac:(lia) Hfit) as (r' & -> & Hr').
  f_equal.
  destruct Hr as [(G & Hr & E)|[G ->]], Hr' as [[Hr' E']|[-> Hno]].
  - apply (inverse_unique d f); auto; lia.
  - exfalso. apply (Hno r); [lia|exact E].
  - exfalso. apply G. apply Z.coprime_Bezout. exists r', (- (r' * d / f)).
    pose proof (Z.div_mod (r' * d) f ltac:(lia)). lia.
  - reflexivity.
Qed.

(** C10: [d = 2^31 - 1] and [f = 5] fit the positive [int] range, and 3 is
    the inverse of [d] modulo 5. [check_gcd] finds it; [find_inverse]
    multiplies in 32 bits, [3 * d] wraps around, and the scan ends with 0. *)
Theorem find_inverse_differs :
  check_gcd 2147483647 5 = Some 3 /\ find_inverse 2147483647 5 = Some 0 /\
  (3 * 2147483647) mod 5 = 1 /\ 0 < 2147483647 < 2^31 /\ 1 < 5 < 2^31.
Proof. repeat split; reflexivity. Qed.

(** ** [generate_keys] *)

Lemma prime_by_is_prime p : 2 <= p < 2^32 -> is_prime p = Some 1 -> Z.prime p.
Proof.
  intros Hp E. destruct (is_prime_correct p Hp) as [[_ H]|[H _]]; [exact H|].
  rewrite E in H. discriminate.
Qed.

Lemma bitsize_bitlength x : 0 <= x < 2^32 -> x <> 1 -> bitsize x = bitlength x.
Proof. apply bitsize_spec. Qed.

(** C5: for [p = 1] and [q = 2^31] the bit lengths are 1 and 32 and their
    sum exceeds 32, but [generate_keys] does not report the overflow: it
    goes on and prints a key. [bitsize] counts no bit for [p = 1]. *)
Theorem generate_keys_misses_overflow :
  generate_keys 1 2147483648 = Done (Keys 2 2147483648 0) /\
  bitlength 1 + bitlength 2147483648 = 33 /\ bitsize 1 + bitsize 2147483648 = 32.
Proof. repeat split; reflexivity. Qed.

(** From 2 on, the overflow check is the one on the bit lengths. *)
Lemma generate_keys_overflow p q :
  2 <= p < 2^32 -> 2 <= q < 2^32 ->
  (generate_keys p q = Fail OverflowError <-> 32 < bitlength p + bitlength q).
Proof.
  intros Hp Hq. unfold generate_keys.
  rewrite !bitsize_bitlength by lia.
  destruct (Z.ltb_spec 32 (bitlength p + bitlength q)) as [H|H].
  - split; [intros _; exact H|reflexivity].
  - split; [|lia].
    destruct (while _ _ _) as [[[e d]|]|]; try discriminate.
    destruct (e =? _); discriminate.
Qed.

(** Two factors that pass the check have a product of at most 32 bits. *)
Lemma no_overflow_product p q :
  2 <= p < 2^32 -> 2 <= q < 2^32 -> bitlength p + bitlength q <= 32 ->
  p * q < 2^32.
Proof.
  intros Hp Hq H.
  pose proof (bitsize_bounds p Hp) as Bp. pose proof (bitsize_bounds q Hq) as Bq.
  rewrite bitsize_bitlength in Bp, Bq by lia.
  assert (0 < bitlength p /\ 0 < bitlength q) as [? ?].
  { unfold bitlength. destruct (Z.eqb_spec p 0), (Z.eqb_spec q 0); try lia.
    pose proof (Z.log2_nonneg p). pose proof (Z.log2_nonneg q). lia. }
  assert (2 ^ bitlength p * 2 ^ bitlength q <= 2^32).
  { rewrite <- Z.pow_add_r by lia. apply Z.pow_le_mono_r; lia. }
  nia.
Qed.

(** The exponent search when the totient fits an [int]. *)
Definition search_result (f : Z) (r : option (Z * Z)) : Prop :=
  match r with
  | Some (e, d) =>
      2 <= e < f /\ Z.gcd e f = 1 /\ 0 < d < f /\ (d * e) mod f = 1 /\
      forall e', 2 <= e' < e -> Z.gcd e' f <> 1
  | None => False
  end.

Lemma generate_keys_search f :
  3 <= f < 2^31 ->
  exists r, while (generate_keys_body f) (2^32) (2, 0) = Some r /\
            search_result f r.
Proof.
  intros Hf.
  apply (while_rule (generate_keys_body f)
           (fun s => 2 <= s.1 <= f /\
                     forall e', 2 <= e' < s.1 -> Z.gcd e' f <> 1)
           (search_result f) (fun s => f - s.1)).
  - intros [e d0] [He Hno]. simpl in He, Hno. split; [simpl; lia|].
    unfold generate_keys_body.
    destruct (Z.ltb_spec e f) as [Hlt|Hge].
    + destruct (check_gcd_spec e f ltac:(lia) ltac:(lia)) as (d & -> & Hd).
      destruct Hd as [(G & Hd & E)|[G ->]].
      * destruct (Z.eqb_spec d 0); [lia|].
        simpl. repeat split; auto; lia.
      * simpl. rewrite u32_small by lia. split; [|lia]. split; [lia|].
        intros e' He'. destruct (Z.eq_dec e' e) as [->|]; [exact G|].
        apply Hno. lia.
    + exfalso. apply (Hno (f - 1)); [lia|].
      apply Z.coprime_Bezout. exists (-1), 1. lia.
  - simpl. split; [lia|]. intros e' He'. lia.
  - simpl. change (Z.pos (2^32)) with (2^32). lia.
Qed.

(** For factors from 2 on that pass the overflow check and a totient
    between 3 and [2^31], [generate_keys] prints a key: the smallest
    exponent from 2 on that is coprime to the totient, and its inverse. *)
Lemma generate_keys_spec p q :
  2 <= p < 2^32 -> 2 <= q < 2^32 -> bitlength p + bitlength q <= 32 ->
  3 <= (p - 1) * (q - 1) < 2^31 ->
  exists e d, generate_keys p q = Done (Keys e (p * q) d) /\
              search_result ((p - 1) * (q - 1)) (Some (e, d)).
Proof.
  intros Hp Hq Hbits Hf. unfold generate_keys.
  rewrite !bitsize_bitlength by lia.
  destruct (Z.ltb_spec 32 (bitlength p + bitlength q)); [lia|].
  pose proof (no_overflow_product p q Hp Hq Hbits).
  rewrite (u32_small (p - 1)), (u32_small (q - 1)), (u32_small (p * q)) by nia.
  rewrite (u32_small ((p - 1) * (q - 1))) by lia.
  destruct (generate_keys_search _ Hf) as ([[e d]|] & -> & Hr); [|destruct Hr].
  exists e, d. split; [|exact Hr].
  destruct Hr as (He & _). destruct (Z.eqb_spec e ((p - 1) * (q - 1))); [lia|].
  reflexivity.
Qed.

(** C4: 65521 and 65519 are primes and pass the overflow check. Their
    totient [f = 65520 * 65518] does not fit an [int]; [check_gcd] reads it
    as a negative number, and [generate_keys] prints [e = 9], which shares
    the factor 3 with [f] and has no inverse modulo [f], with a [d] that is
    not an inverse of it. The smallest exponent with an inverse is 11. *)
Theorem generate_keys_wrong_exponent :
  Z.prime 65521 /\ Z.prime 65519 /\ bitlength 65521 + bitlength 65519 <= 32 /\
  generate_keys 65521 65519 = Done (Keys 9 4292870399 495097) /\
  ~ invertible 9 (65520 * 65518) /\
  (495097 * 9) mod (65520 * 65518) <> 1 /\
  invertible 11 (65520 * 65518).
Proof.
  split; [apply prime_by_is_prime; [lia|vm_compute; reflexivity]|].
  split; [apply prime_by_is_prime; [lia|vm_compute; reflexivity]|].
  split; [vm_compute; discriminate|].
  split; [vm_compute; reflexivity|].
  split; [|split; [vm_compute; discriminate|]].
  - intros [x Hx]. change (1 mod (65520 * 65518)) with 1 in Hx.
    change (65520 * 65518) with 4292739360 in Hx.
    pose proof (Z.div_mod (x * 9) 4292739360 ltac:(lia)) as H.
    rewrite Hx in H. lia.
  - exists 1560996131. vm_compute. reflexivity.
Qed.

(** The same command for [p = q = 2]: the totient is 1, no exponent is
    tried, and a key with [d = 0] is printed where the failure is due: the
    test [e == f] after the loop does not see that the loop never ran. *)
Lemma generate_keys_two_two : generate_keys 2 2 = Done (Keys 2 4 0).
Proof. reflexivity. Qed.

(** ** Bit cursors *)

(** A cursor is well formed when its bit offset is a bit of a byte; its
    position counted in bits from the start of the buffer is [bit_index]. *)
Definition cursor_ok (c : cursor) : Prop := 0 <= cur_bit c < 8.

Definition bit_index (c : cursor) : Z := 8 * Z.of_nat (cur_pos c) + cur_bit c.

(** Bit [k] of a buffer, least significant bit of each byte first. *)
Definition buffer_bit (mem : list Z) (k : Z) : bool :=
  Z.testbit (default 0 (mem !! Z.to_nat (k / 8))) (k mod 8).

(** The cursor [n] bits after [c]. *)
Definition seek (c : cursor) (n : Z) : cursor :=
  Cursor (Z.to_nat ((bit_index c + n) / 8)) ((bit_index c + n) mod 8).

Lemma cursor_ext c c' :
  cursor_ok c -> cursor_ok c' -> bit_index c = bit_index c' -> c = c'.
Proof.
  destruct c as [p b], c' as [p' b']. unfold cursor_ok, bit_index. simpl.
  intros Hb Hb' E. assert (p = p') by lia. assert (b = b') by lia.
  congruence.
Qed.

Lemma seek_ok c n : cursor_ok (seek c n).
Proof. unfold cursor_ok, seek. simpl. apply Z.mod_pos_bound. lia. Qed.

Lemma bit_index_nonneg c : cursor_ok c -> 0 <= bit_index c.
Proof. unfold cursor_ok, bit_index. lia. Qed.

Lemma bit_index_seek c n :
  cursor_ok c -> 0 <= n -> bit_index (seek c n) = bit_index c + n.
Proof.
  intros Hc Hn. pose proof (bit_index_nonneg c Hc).
  unfold seek, bit_index at 1. simpl.
  rewrite Z2Nat.id by (apply Z.div_pos; lia).
  symmetry. apply Z.div_mod. lia.
Qed.

Lemma seek_0 c : cursor_ok c -> seek c 0 = c.
Proof.
  intros Hc. apply cursor_ext; [apply seek_ok|exact Hc|].
  rewrite bit_index_seek; [lia|exact Hc|lia].
Qed.

Lemma seek_seek c n m :
  cursor_ok c -> 0 <= n -> 0 <= m -> seek (seek c n) m = seek c (n + m).
Proof.
  intros Hc Hn Hm. apply cursor_ext; try apply seek_ok.
  rewrite !bit_index_seek; try lia; try done. apply seek_ok.
Qed.

Lemma advance_seek c : cursor_ok c -> advance c = seek c 1.
Proof.
  intros Hc. apply cursor_ext; [| apply seek_ok |].
  - unfold advance, cursor_ok in *. rewrite u32_small by lia.
    destruct (Z.leb_spec 8 (cur_bit c + 1)); simpl; lia.
  - rewrite bit_index_seek by (done || lia).
    unfold advance, cursor_ok, bit_index in *. rewrite u32_small by lia.
    destruct (Z.leb_spec 8 (cur_bit c + 1)); simpl; lia.
Qed.

(** The byte and the bit a well-formed cursor points at. *)
Lemma buffer_bit_cursor mem c :
  cursor_ok c ->
  buffer_bit mem (bit_index c) =
  Z.testbit (default 0 (mem !! cur_pos c)) (cur_bit c).
Proof.
  intros Hc. unfold buffer_bit, bit_index, cursor_ok in *.
  replace ((8 * Z.of_nat (cur_pos c) + cur_bit c) / 8) with (Z.of_nat (cur_pos c))
    by dlia.
  replace ((8 * Z.of_nat (cur_pos c) + cur_bit c) mod 8) with (cur_bit c)
    by dlia.
  rewrite Nat2Z.id. reflexivity.
Qed.

Lemma cursor_in_bounds (mem : list Z) c :
  cursor_ok c -> bit_index c < 8 * Z.of_nat (length mem) ->
  (cur_pos c < length mem)%nat.
Proof. unfold cursor_ok, bit_index. lia. Qed.

(** Bits of the operands of the two loops. *)
Lemma u32_i32 x : u32 (i32 x) = u32 x.
Proof.
  destruct (i32_eqm x) as [k ->]. unfold u32. apply Z.mod_add. lia.
Qed.

Lemma land_1_testbit x : Z.land x 1 = Z.b2z (Z.testbit x 0).
Proof.
  change 1 with (2^0) at 1. rewrite land_pow2 by lia.
  destruct (Z.testbit x 0); reflexivity.
Qed.

Lemma shiftl_b2z_bits (t : bool) k j :
  0 <= k -> Z.testbit (Z.shiftl (Z.b2z t) k) j = t && (j =? k).
Proof.
  intros Hk. destruct t; simpl.
  - rewrite Z.shiftl_1_l, Z.pow2_bits_eqb by lia. apply Z.eqb_sym.
  - rewrite Z.shiftl_0_l. apply Z.bits_0.
Qed.

Lemma shiftl_b2z_range (t : bool) k :
  0 <= k -> 0 <= Z.shiftl (Z.b2z t) k <= 2^k.
Proof.
  intros Hk. destruct t; simpl.
  - rewrite Z.shiftl_1_l. pose proof (Z.pow_pos_nonneg 2 k). lia.
  - rewrite Z.shiftl_0_l. pose proof (Z.pow_pos_nonneg 2 k). lia.
Qed.

(** ** [readbits] *)

Lemma readbits_loop_spec mem n counter result c :
  cursor_ok c -> 0 <= counter -> counter + Z.of_nat n <= 32 ->
  bit_index c + Z.of_nat n <= 8 * Z.of_nat (length mem) ->
  exists v,
    readbits_loop mem n counter result c = Some (v, seek c (Z.of_nat n)) /\
    forall j, 0 <= j ->
      Z.testbit v j =
      Z.testbit result j ||
      ((counter <=? j) && (j <? counter + Z.of_nat n) &&
       buffer_bit mem (bit_index c + j - counter)).
Proof.
  revert counter result c.
  induction n as [|n IH]; intros counter result c Hc Hk Hn Hmem.
  - exists result. simpl. rewrite seek_0 by done. split; [done|].
    intros j Hj.
    destruct (Z.leb_spec counter j), (Z.ltb_spec j (counter + Z.of_nat 0));
      simpl; try lia; by rewrite Bool.orb_false_r.
  - cbn [readbits_loop].
    pose proof (cursor_in_bounds mem c Hc ltac:(lia)) as Hpos.
    apply lookup_lt_is_Some in Hpos. destruct Hpos as [byte Hbyte].
    rewrite Hbyte. simpl.
    unfold c_shr, c_shl. unfold cursor_ok in Hc.
    destruct (Z.ltb_spec (cur_bit c) 32); [|lia].
    destruct (Z.ltb_spec counter 32); [|lia]. simpl.
    rewrite (u32_small (counter + 1)) by lia.
    rewrite advance_seek by done.
    destruct (IH (counter + 1)
                (Z.lor result (u32 (i32 (Z.shiftl
                   (Z.land (Z.shiftr byte (cur_bit c)) 1) counter))))
                (seek c 1)) as (v & Hv & Hbits).
    + apply seek_ok.
    + lia.
    + lia.
    + rewrite bit_index_seek by (done || lia). lia.
    + exists v. split.
      * rewrite Hv, seek_seek by (done || lia). do 3 f_equal. lia.
      * intros j Hj. rewrite (Hbits j Hj), Z.lor_spec.
        rewrite u32_i32, land_1_testbit.
        rewrite u32_small
          by (pose proof (shiftl_b2z_range
                            (Z.testbit (Z.shiftr byte (cur_bit c)) 0) counter Hk);
              assert (2 ^ counter <= 2 ^ 31) by (apply Z.pow_le_mono_r; lia);
              lia).
        rewrite shiftl_b2z_bits, Z.shiftr_spec by lia.
        rewrite bit_index_seek by (done || lia).
        assert (Hcur : buffer_bit mem (bit_index c) = Z.testbit byte (cur_bit c)).
        { rewrite buffer_bit_cursor by done. rewrite Hbyte. reflexivity. }
        change (0 + cur_bit c) with (cur_bit c). rewrite <- Hcur.
        destruct (Z.eqb_spec j counter) as [->|Hne].
        -- replace (bit_index c + counter - counter) with (bit_index c) by lia.
           destruct (Z.leb_spec (counter + 1) counter),
             (Z.leb_spec counter counter),
             (Z.ltb_spec counter (counter + Z.of_nat (S n))); simpl; try lia.
           rewrite Bool.andb_true_r, Bool.orb_false_r. reflexivity.
        -- rewrite Bool.andb_false_r, Bool.orb_false_r.
           replace (bit_index c + 1 + j - (counter + 1))
             with (bit_index c + j - counter) by lia.
           f_equal. f_equal.
           destruct (Z.leb_spec (counter + 1) j), (Z.leb_spec counter j),
             (Z.ltb_spec j (counter + 1 + Z.of_nat n)),
             (Z.ltb_spec j (counter + Z.of_nat (S n)));
             simpl; try lia; reflexivity.
Qed.

Lemma readbits_spec mem c n :
  cursor_ok c -> 0 <= n <= 32 ->
  bit_index c + n <= 8 * Z.of_nat (length mem) ->
  exists v,
    readbits mem c n = Some (v, seek c n) /\
    forall j, 0 <= j ->
      Z.testbit v j = (j <? n) && buffer_bit mem (bit_index c + j).
Proof.
  intros Hc Hn Hmem. unfold readbits.
  destruct (readbits_loop_spec mem (Z.to_nat n) 0 0 c) as (v & Hv & Hbits);
    try done; try lia.
  rewrite Z2Nat.id in * by lia.
  exists v. split; [exact Hv|].
  intros j Hj. rewrite (Hbits j Hj), Z.bits_0. simpl.
  destruct (Z.leb_spec 0 j); [|lia]. simpl.
  do 2 f_equal. lia.
Qed.

(** A value whose bits from [n] on are clear is below [2^n]. *)
Lemma bits_range v n :
  0 <= n -> (forall j, n <= j -> Z.testbit v j = false) -> 0 <= v < 2^n.
Proof.
  intros Hn Hhigh.
  assert (v = v mod 2^n) as ->.
  { apply Z.bits_inj'. intros j Hj.
    destruct (Z.lt_ge_cases j n).
    - by rewrite Z.mod_pow2_bits_low.
    - rewrite Z.mod_pow2_bits_high by lia. by apply Hhigh. }
  apply Z.mod_pos_bound. apply Z.pow_pos_nonneg; lia.
Qed.

Lemma readbits_range mem c n v c' :
  cursor_ok c -> 0 <= n <= 32 ->
  bit_index c + n <= 8 * Z.of_nat (length mem) ->
  readbits mem c n = Some (v, c') -> 0 <= v < 2^n.
Proof.
  intros Hc Hn Hmem E.
  destruct (readbits_spec mem c n Hc Hn Hmem) as (v' & Hv & Hbits).
  rewrite E in Hv. injection Hv as -> _.
  apply bits_range; [lia|]. intros j Hj. rewrite Hbits by lia.
  destruct (Z.ltb_spec j n); [lia|done].
Qed.

(** ** [writebits] *)

(** Or-ing one bit into the byte under the cursor sets that bit of the
    buffer and leaves the others. *)
Lemma buffer_bit_set mem c byte (t : bool) k :
  cursor_ok c -> mem !! cur_pos c = Some byte -> 0 <= k ->
  buffer_bit
    (<[cur_pos c := u8 (Z.lor byte (u32 (Z.shiftl (Z.b2z t) (cur_bit c))))]> mem) k
  = buffer_bit mem k || ((k =? bit_index c) && t).
Proof.
  intros Hc Hbyte Hk.
  pose proof (lookup_lt_Some _ _ _ Hbyte) as Hlen.
  unfold buffer_bit at 1. rewrite list_lookup_insert.
  unfold cursor_ok, bit_index in *.
  assert (Hm : 0 <= k mod 8 < 8) by (apply Z.mod_pos_bound; lia).
  destruct (decide (cur_pos c = Z.to_nat (k / 8) /\ (cur_pos c < length mem)%nat))
    as [[E _]|N].
  - simpl. unfold u8. rewrite Z.mod_pow2_bits_low, Z.lor_spec by lia.
    rewrite u32_small.
    2:{ pose proof (shiftl_b2z_range t (cur_bit c) ltac:(lia)).
        assert (2 ^ cur_bit c <= 2 ^ 7) by (apply Z.pow_le_mono_r; lia). lia. }
    rewrite shiftl_b2z_bits by lia.
    unfold buffer_bit. rewrite <- E, Hbyte. simpl. f_equal.
    rewrite Bool.andb_comm. f_equal.
    destruct (Z.eqb_spec (k mod 8) (cur_bit c)),
      (Z.eqb_spec k (8 * Z.of_nat (cur_pos c) + cur_bit c)); try done; dlia.
  - destruct (Z.eqb_spec k (8 * Z.of_nat (cur_pos c) + cur_bit c)) as [->|].
    + exfalso. apply N. split; [|done].
      replace ((8 * Z.of_nat (cur_pos c) + cur_bit c) / 8)
        with (Z.of_nat (cur_pos c)) by dlia. lia.
    + simpl. rewrite Bool.orb_false_r. reflexivity.
Qed.

Lemma writebits_loop_spec mem n counter value c :
  cursor_ok c -> 0 <= counter -> counter + Z.of_nat n <= 32 ->
  bit_index c + Z.of_nat n <= 8 * Z.of_nat (length mem) ->
  exists mem',
    writebits_loop mem n counter value c = Some (mem', seek c (Z.of_nat n)) /\
    length mem' = length mem /\
    (Forall is_u8 mem -> Forall is_u8 mem') /\
    forall k, 0 <= k ->
      buffer_bit mem' k =
      buffer_bit mem k ||
      ((bit_index c <=? k) && (k <? bit_index c + Z.of_nat n) &&
       Z.testbit value (counter + k - bit_index c)).
Proof.
  revert mem counter c.
  induction n as [|n IH]; intros mem counter c Hc Hk Hn Hmem.
  - exists mem. simpl. rewrite seek_0 by done. repeat split; try done.
    intros k Hk0.
    destruct (Z.leb_spec (bit_index c) k),
      (Z.ltb_spec k (bit_index c + Z.of_nat 0));
      simpl; try lia; by rewrite Bool.orb_false_r.
  - cbn [writebits_loop].
    pose proof (cursor_in_bounds mem c Hc ltac:(lia)) as Hpos.
    apply lookup_lt_is_Some in Hpos. destruct Hpos as [byte Hbyte].
    rewrite Hbyte. simpl.
    unfold c_shr, c_shl. pose proof Hc as Hc'. unfold cursor_ok in Hc'.
    destruct (Z.ltb_spec (cur_bit c) 32); [|lia].
    destruct (Z.ltb_spec counter 32); [|lia]. simpl.
    rewrite (u32_small (counter + 1)) by lia.
    rewrite advance_seek by done.
    rewrite land_1_testbit, Z.shiftr_spec by lia.
    change (0 + counter) with counter.
    set (mem1 := <[cur_pos c := _]> mem).
    destruct (IH mem1 (counter + 1) (seek c 1)) as (mem' & Hw & Hlen & Hu8 & Hbits).
    + apply seek_ok.
    + lia.
    + lia.
    + rewrite bit_index_seek by (done || lia).
      unfold mem1. rewrite length_insert. lia.
    + exists mem'. split; [|split; [|split]].
      * rewrite Hw, seek_seek by (done || lia). do 3 f_equal. lia.
      * rewrite Hlen. unfold mem1. apply length_insert.
      * intros Hmem8. apply Hu8. unfold mem1.
        apply Forall_insert; [done|]. apply u8_range.
      * intros k Hk0. rewrite (Hbits k Hk0). unfold mem1.
        rewrite buffer_bit_set by done.
        rewrite bit_index_seek by (done || lia).
        rewrite <- Bool.orb_assoc. f_equal.
        destruct (Z.eqb_spec k (bit_index c)) as [->|Hne].
        -- replace (counter + bit_index c - bit_index c) with counter by lia.
           destruct (Z.leb_spec (bit_index c + 1) (bit_index c)),
             (Z.leb_spec (bit_index c) (bit_index c)),
             (Z.ltb_spec (bit_index c) (bit_index c + Z.of_nat (S n)));
             simpl; try lia.
           by rewrite Bool.orb_false_r.
        -- simpl.
           replace (counter + 1 + k - (bit_index c + 1))
             with (counter + k - bit_index c) by lia.
           f_equal. 
           destruct (Z.leb_spec (bit_index c + 1) k), (Z.leb_spec (bit_index c) k),
             (Z.ltb_spec k (bit_index c + 1 + Z.of_nat n)),
             (Z.ltb_spec k (bit_index c + Z.of_nat (S n)));
             simpl; try lia; reflexivity.
Qed.

Lemma writebits_spec mem c n value :
  cursor_ok c -> 0 <= n <= 32 ->
  bit_index c + n <= 8 * Z.of_nat (length mem) ->
  exists mem',
    writebits mem c n value = Some (mem', seek c n) /\
    length mem' = length mem /\
    (Forall is_u8 mem -> Forall is_u8 mem') /\
    forall k, 0 <= k ->
      buffer_bit mem' k =
      buffer_bit mem k ||
      ((bit_index c <=? k) && (k <? bit_index c + n) &&
       Z.testbit value (k - bit_index c)).
Proof.
  intros Hc Hn Hmem. unfold writebits.
  destruct (writebits_loop_spec mem (Z.to_nat n) 0 value c)
    as (mem' & Hw & Hlen & Hu8 & Hbits); try done; try lia.
  rewrite Z2Nat.id in * by lia.
  exists mem'. repeat split; done.
Qed.

(** ** Packing and unpacking a sequence of fields *)

(** The fields [(n, v)] written one after the other, and the widths read
    one after the other. *)
Fixpoint write_fields (mem : list Z) (c : cursor) (fields : list (Z * Z))
  : option (list Z * cursor) :=
  match fields with
  | [] => Some (mem, c)
  | (n, v) :: rest =>
      '(mem', c') ← writebits mem c n v;
      write_fields mem' c' rest
  end.

Fixpoint read_fields (mem : list Z) (c : cursor) (widths : list Z)
  : option (list Z * cursor) :=
  match widths with
  | [] => Some ([], c)
  | n :: rest =>
      '(v, c') ← readbits mem c n;
      '(vs, c'') ← read_fields mem c' rest;
      Some (v :: vs, c'')
  end.

Definition total_width (fields : list (Z * Z)) : Z :=
  foldr (fun nv acc => nv.1 + acc) 0 fields.

(** The round trip of the fields over a cleared buffer of [len] bytes:
    writing from the start succeeds, reading the same widths from the start
    gives back the values [expected], and both cursors end at the same
    place, the total width of the fields. *)
Definition packing_round_trip (fields : list (Z * Z)) (len : nat)
  (expected : list Z) : Prop :=
  exists mem' c',
    write_fields (replicate len 0) (Cursor 0 0) fields = Some (mem', c') /\
    read_fields mem' (Cursor 0 0) (fields.*1) = Some (expected, c') /\
    bit_index c' = total_width fields.

Lemma total_width_nonneg fields :
  Forall (fun nv => 0 <= nv.1 <= 32) fields -> 0 <= total_width fields.
Proof.
  induction 1 as [|[n v] rest Hn _ IH]; simpl in *; lia.
Qed.

Lemma low_bits_eq v v' n :
  0 <= n ->
  (forall j, 0 <= j -> Z.testbit v' j = (j <? n) && Z.testbit v j) ->
  v' = v mod 2^n.
Proof.
  intros Hn H. apply Z.bits_inj'. intros j Hj. rewrite (H j Hj).
  destruct (Z.ltb_spec j n).
  - by rewrite Z.mod_pow2_bits_low.
  - by rewrite Z.mod_pow2_bits_high.
Qed.

Lemma fields_round_trip fields : forall mem c,
  cursor_ok c ->
  Forall (fun nv => 0 <= nv.1 <= 32) fields ->
  (forall k, bit_index c <= k -> buffer_bit mem k = false) ->
  bit_index c + total_width fields <= 8 * Z.of_nat (length mem) ->
  exists mem',
    write_fields mem c fields = Some (mem', seek c (total_width fields)) /\
    length mem' = length mem /\
    (forall k, 0 <= k < bit_index c -> buffer_bit mem' k = buffer_bit mem k) /\
    read_fields mem' c (fields.*1)
    = Some ((fun nv => nv.2 mod 2 ^ nv.1) <$> fields,
            seek c (total_width fields)).
Proof.
  induction fields as [|[n v] rest IH]; intros mem c Hc Hw Hclean Hfit.
  - exists mem. simpl. rewrite seek_0 by done. done.
  - pose proof (Forall_inv Hw) as Hn. apply Forall_inv_tail in Hw.
    simpl in Hn, Hfit.
    pose proof (total_width_nonneg rest Hw) as Hrest.
    pose proof (bit_index_nonneg c Hc) as Hidx.
    destruct (writebits_spec mem c n v Hc Hn ltac:(lia))
      as (mem1 & Hw1 & Hlen1 & _ & Hbits1).
    destruct (IH mem1 (seek c n)) as (mem' & Hw' & Hlen' & Hkeep & Hr').
    + apply seek_ok.
    + exact Hw.
    + intros k Hk. rewrite bit_index_seek in Hk by (done || lia).
      rewrite Hbits1 by lia. rewrite Hclean by lia.
      destruct (Z.ltb_spec k (bit_index c + n)); [lia|].
      by rewrite Bool.andb_false_r.
    + rewrite bit_index_seek by (done || lia). lia.
    + rewrite seek_seek in Hw', Hr' by (done || lia).
      rewrite bit_index_seek in Hkeep by (done || lia).
      exists mem'. split; [|split; [|split]].
      * simpl. rewrite Hw1. simpl. exact Hw'.
      * lia.
      * intros k Hk. rewrite Hkeep by lia. rewrite Hbits1 by lia.
        destruct (Z.leb_spec (bit_index c) k); [lia|].
        by rewrite Bool.orb_false_r.
      * simpl.
        destruct (readbits_spec mem' c n Hc Hn ltac:(lia)) as (v' & Hv' & Hvb).
        rewrite Hv'. simpl.
        change (list_fmap (Z * Z)%type Z fst rest) with (rest.*1).
        rewrite Hr'. simpl. do 2 f_equal.
        f_equal. apply low_bits_eq; [lia|].
        intros j Hj. rewrite (Hvb j Hj).
        destruct (Z.ltb_spec j n); [|done]. simpl.
        rewrite Hkeep, Hbits1 by lia. rewrite Hclean by lia.
        destruct (Z.leb_spec (bit_index c) (bit_index c + j)); [|lia].
        destruct (Z.ltb_spec (bit_index c + j) (bit_index c + n)); [|lia].
        simpl. f_equal. lia.
Qed.

Lemma buffer_bit_replicate len k : buffer_bit (replicate len 0) k = false.
Proof.
  unfold buffer_bit.
  destruct (replicate len 0 !! Z.to_nat (k / 8)) as [b|] eqn:E; simpl.
  - apply lookup_replicate in E as [-> _]. apply Z.bits_0.
  - apply Z.bits_0.
Qed.

(** Every field comes back reduced to its width. *)
Lemma packing_round_trip_low_bits fields len :
  Forall (fun nv => 0 <= nv.1 <= 32) fields ->
  total_width fields <= 8 * Z.of_nat len ->
  packing_round_trip fields len ((fun nv => nv.2 mod 2 ^ nv.1) <$> fields).
Proof.
  intros Hw Hfit.
  destruct (fields_round_trip fields (replicate len 0) (Cursor 0 0))
    as (mem' & Hwr & _ & _ & Hrd).
  - unfold cursor_ok. simpl. lia.
  - exact Hw.
  - intros k _. apply buffer_bit_replicate.
  - rewrite length_replicate. unfold bit_index. simpl. lia.
  - exists mem', (seek (Cursor 0 0) (total_width fields)).
    split; [exact Hwr|]. split; [exact Hrd|].
    rewrite bit_index_seek.
    + unfold bit_index. simpl. lia.
    + unfold cursor_ok. simpl. lia.
    + by apply total_width_nonneg.
Qed.

(** C7, as the code has it: for widths between 1 and 32 and values that fit
    their width, writing the fields into a cleared buffer that is large
    enough and reading the same widths from its start gives back the
    values, and both cursors advance by the total width. *)
Theorem bit_packing_round_trip fields len :
  Forall (fun nv => 1 <= nv.1 <= 32 /\ 0 <= nv.2 < 2 ^ nv.1) fields ->
  total_width fields <= 8 * Z.of_nat len ->
  packing_round_trip fields len (fields.*2).
Proof.
  intros Hf Hfit.
  replace (fields.*2) with ((fun nv => nv.2 mod 2 ^ nv.1) <$> fields).
  - apply packing_round_trip_low_bits; [|exact Hfit].
    eapply Forall_impl; [|exact Hf]. simpl. intros nv. lia.
  - apply Forall_fmap_ext_1. eapply Forall_impl; [|exact Hf].
    simpl. intros nv [_ Hv]. apply Z.mod_small. exact Hv.
Qed.

Lemma bit_packing_round_trip_witness :
  packing_round_trip [(3, 5); (22, 1749531); (32, 4294967295)] 8
                     [5; 1749531; 4294967295].
Proof.
  apply (bit_packing_round_trip [(3, 5); (22, 1749531); (32, 4294967295)] 8).
  - repeat constructor; simpl; lia.
  - simpl. lia.
Defined.

(** C7 as stated, for any values: the value 2 written as a field of one bit
    is read back as 0, since only the low bit is written. *)
Lemma bit_packing_truncates :
  Forall (fun nv => 1 <= nv.1 <= 32 /\ 0 <= nv.2 < 2^32) [(1, 2)] /\
  total_width [(1, 2)] <= 8 * Z.of_nat 1 /\
  ~ packing_round_trip [(1, 2)] 1 ([(1, 2)].*2).
Proof.
  split; [repeat constructor; simpl; lia|]. split; [simpl; lia|].
  intros (mem' & c' & Hw & Hr & _).
  vm_compute in Hw. injection Hw as <- <-.
  vm_compute in Hr. discriminate.
Qed.


(** ** The length header *)

Lemma length_le_encode k x : length (le_encode k x) = k.
Proof. revert x. induction k as [|k IH]; intros x; simpl; [done|by rewrite IH]. Qed.

Lemma le_encode_u8 k x : Forall is_u8 (le_encode k x).
Proof.
  revert x. induction k as [|k IH]; intros x; simpl; constructor.
  - apply u8_range.
  - apply IH.
Qed.

Lemma le_decode_encode k x :
  le_decode (le_encode k x) = x mod 2 ^ (8 * Z.of_nat k).
Proof.
  revert x. induction k as [|k IH]; intros x.
  - simpl. by rewrite Z.mod_1_r.
  - cbn [le_encode le_decode]. rewrite IH. unfold u8.
    rewrite Z.shiftr_div_pow2 by lia.
    replace (8 * Z.of_nat (S k)) with (8 + 8 * Z.of_nat k) by lia.
    rewrite Z.pow_add_r by lia.
    rewrite Z.rem_mul_r by (try apply Z.pow_nonzero; lia).
    reflexivity.
Qed.

Lemma i64_u64 x : - 2^63 <= x < 2^63 -> i64 (x mod 2^64) = x.
Proof.
  intros Hx. unfold i64, signed.
  rewrite Zplus_mod_idemp_l.
  rewrite Z.mod_small; lia.
Qed.

(** The header that [encrypt_file] writes is the one [decrypt_file] loads. *)
Lemma load_off_t_header x rest :
  - 2^63 <= x < 2^63 -> load_off_t (le_encode 8 x ++ rest) = Some x.
Proof.
  intros Hx. unfold load_off_t.
  rewrite length_app, length_le_encode.
  destruct (Z.leb_spec 8 (Z.of_nat (8 + length rest))); [|lia].
  rewrite take_app_length' by (symmetry; apply length_le_encode).
  rewrite le_decode_encode. f_equal. by apply i64_u64.
Qed.

(** ** The sanity check of [decrypt_file] *)

(** [decrypt_file] reports a corrupted file exactly when there is a header
    to load and the check on it fails. *)
Lemma decrypt_file_corrupt_iff file old_src old_dst d n :
  decrypt_file file old_src old_dst d n = Fail CorruptFileError <->
  exists len,
    load_off_t (read_file file old_src).1 = Some len /\
    corrupted len (read_file file old_src).2 (u32 (bitsize n - 1)) = true.
Proof.
  unfold decrypt_file.
  destruct (read_file file old_src) as [buf buflen]. cbn [fst snd].
  destruct (load_off_t buf) as [len|]; [|split; [done|by intros (? & ? & _)]].
  destruct (corrupted len buflen (u32 (bitsize n - 1))) eqn:E.
  - split; [by exists len|done].
  - split; [|by intros (? & [= <-] & ?); congruence].
    destruct (while _ _ _) as [[s|]|]; done.
Qed.

(** Where nothing overflows, the check compares the difference between the
    length in the header and the length of the data with the tolerance
    [len / dstbits + 9]. *)
Lemma corrupted_in_range len buflen dstbits :
  0 <= len < 2^31 - 9 -> 0 <= buflen < 2^31 -> 1 <= dstbits ->
  corrupted len buflen dstbits =
  (len / dstbits + 9 <? Z.abs (len - (buflen - 8))).
Proof.
  intros Hlen Hbuf Hbits.
  assert (Hq : 0 <= len / dstbits <= len).
  { split; [apply Z.div_pos; lia|]. apply Z.div_le_upper_bound; [lia|].
    rewrite <- (Z.mul_1_l len) at 1. apply Z.mul_le_mono_nonneg_r; lia. }
  assert (L : lendiff len buflen = len - (buflen - 8)).
  { unfold lendiff, u64. rewrite <- Zminus_mod.
    destruct (Z.le_gt_cases 0 (len - (buflen - 8))).
    - rewrite Z.mod_small by lia. apply i32_small. lia.
    - replace ((len - (buflen - 8)) mod 2^64) with (len - (buflen - 8) + 2^64).
      + apply i32_unique with (k := - 2^32); lia.
      + apply Z.mod_unique with (q := -1); lia. }
  assert (M : maxdiff len dstbits = len / dstbits + 9).
  { unfold maxdiff. rewrite Z.quot_div_nonneg by lia.
    rewrite (i64_small (len / dstbits)) by lia.
    rewrite (i64_small (len / dstbits + 1)) by lia.
    rewrite u64_small by lia. rewrite i32_small; lia. }
  unfold corrupted. rewrite L, M.
  rewrite i32_small by lia.
  destruct (Z.ltb_spec len 0); [lia|]. simpl.
  destruct (Z.ltb_spec (len - (buflen - 8)) (- (len / dstbits + 9))),
    (Z.ltb_spec (len / dstbits + 9) (len - (buflen - 8))),
    (Z.ltb_spec (len / dstbits + 9) (Z.abs (len - (buflen - 8))));
    simpl; lia.
Qed.

(** A negative header is always rejected. *)
Lemma corrupted_negative len buflen dstbits :
  len < 0 -> corrupted len buflen dstbits = true.
Proof.
  intros H. unfold corrupted. by destruct (Z.ltb_spec len 0); [|lia].
Qed.

Lemma read_file_nonempty file old :
  file <> [] ->
  exists slack, read_file file old = (file ++ slack, Z.of_nat (length file)).
Proof.
  intros Hne. unfold read_file.
  destruct (Z.eqb_spec (Z.of_nat (length file)) 0) as [E|_].
  - destruct file; [done|simpl in E; lia].
  - eauto.
Qed.

Lemma decrypt_file_negative_header len rest old_src old_dst d n :
  - 2^63 <= len < 0 ->
  decrypt_file (le_encode 8 len ++ rest) old_src old_dst d n
  = Fail CorruptFileError.
Proof.
  intros Hlen. apply decrypt_file_corrupt_iff.
  destruct (read_file_nonempty (le_encode 8 len ++ rest) old_src) as [slack ->].
  { intros E. apply (f_equal length) in E.
    rewrite length_app, length_le_encode in E. simpl in E. lia. }
  cbn [fst snd]. exists len. split.
  - rewrite <- (assoc_L (++)). apply load_off_t_header. lia.
  - apply corrupted_negative. lia.
Qed.

(** C8: a file of 8 bytes, a header that announces [21 * 2^32] bytes and no
    data, decrypted with the modulus 2582299 (22 bits, [dstbits = 21]). The
    data is [21 * 2^32] bytes short of the announced length, far beyond the
    tolerance of [2^32 + 9] bytes, but both [int] variables of the check
    lose their upper bits ([lendiff = 0], [maxdiff = 9]) and the file is not
    rejected. *)
Theorem corrupt_header_accepted :
  let len := 21 * 2^32 in
  let file := le_encode 8 len in
  load_off_t file = Some len /\
  u32 (bitsize 2582299 - 1) = 21 /\
  len / 21 + 9 < Z.abs (len - (Z.of_nat (length file) - 8)) /\
  lendiff len 8 = 0 /\ maxdiff len 21 = 9 /\
  forall old_src old_dst d,
    decrypt_file file old_src old_dst d 2582299 <> Fail CorruptFileError.
Proof.
  cbv zeta. split; [reflexivity|]. split; [reflexivity|].
  split; [vm_compute; reflexivity|]. split; [reflexivity|]. split; [reflexivity|].
  intros old_src old_dst d H.
  apply decrypt_file_corrupt_iff in H as (len & Hload & Hbad).
  destruct (read_file_nonempty (le_encode 8 (21 * 2^32)) old_src) as [slack E];
    [done|].
  rewrite E in Hload, Hbad. cbn [fst] in Hload. cbn [snd] in Hbad.
  rewrite load_off_t_header in Hload by lia. injection Hload as <-.
  vm_compute in Hbad. discriminate.
Qed.

(** ** Encrypting and decrypting with a generated key *)

(** C1: the key that [generate_keys] prints for the primes 65521 and 65519,
    which pass the overflow check, does not decrypt what it encrypts, even
    with all fresh memory cleared: the three bytes "RSA" come back as
    [60; 222; 136]. The private exponent is not an inverse of the public
    one, since [check_gcd] computed with a totient that does not fit an
    [int]. *)
Theorem round_trip_fails_for_generated_key :
  let plain := [82; 83; 65] in
  let cipher := [3; 0; 0; 0; 0; 0; 0; 0; 32; 97; 222; 50; 0] in
  Z.prime 65521 /\ Z.prime 65519 /\
  generate_keys 65521 65519 = Done (Keys 9 4292870399 495097) /\
  encrypt_file plain zeroed zeroed 9 4292870399 = Done cipher /\
  decrypt_file cipher zeroed zeroed 495097 4292870399 = Done [60; 222; 136] /\
  [60; 222; 136] <> plain.
Proof.
  cbv zeta.
  split; [apply prime_by_is_prime; [lia|vm_compute; reflexivity]|].
  split; [apply prime_by_is_prime; [lia|vm_compute; reflexivity]|].
  split; [vm_compute; reflexivity|].
  split; [vm_compute; reflexivity|].
  split; [vm_compute; reflexivity|discriminate].
Qed.

(** * Further properties of the code *)

(** ** [bitsize], [is_prime], [find_next_prime] *)

(** [bitsize] is the bit length of every 32-bit value other than 1. *)
Theorem bitsize_is_bitlength x :
  0 <= x < 2^32 -> x <> 1 -> bitsize x = bitlength x.
Proof. apply bitsize_spec. Qed.

Lemma bitsize_is_bitlength_witness : bitsize 2582299 = bitlength 2582299.
Proof. apply (bitsize_is_bitlength 2582299); lia. Defined.

(** [bitsize] never answers 1: the block widths [bitsize n - 1] that
    [encrypt_file] and [decrypt_file] divide by are never 0. *)
Theorem bitsize_never_one x :
  0 <= x < 2^32 -> bitsize x <> 1 /\ 0 <= bitsize x <= 32 /\ u32 (bitsize x - 1) <> 0.
Proof.
  intros Hx. destruct (bitsize_range x Hx) as [E|E].
  - rewrite E. split; [lia|]. split; [lia|]. vm_compute. discriminate.
  - split; [lia|]. split; [lia|]. rewrite u32_small; lia.
Qed.

Lemma bitsize_never_one_witness :
  bitsize 1 <> 1 /\ 0 <= bitsize 1 <= 32 /\ u32 (bitsize 1 - 1) <> 0.
Proof. apply (bitsize_never_one 1). lia. Defined.

(** From 2 on, [is_prime] answers 1 for the primes and 0 for the others. *)
Theorem is_prime_decides p :
  2 <= p < 2^32 ->
  (Z.prime p -> is_prime p = Some 1) /\ (~ Z.prime p -> is_prime p = Some 0).
Proof.
  intros Hp. destruct (is_prime_correct p Hp) as [[E H]|[E H]]; split; intros H';
    try done.
Qed.

Lemma is_prime_decides_witness :
  (Z.prime 1511 -> is_prime 1511 = Some 1) /\
  (~ Z.prime 1511 -> is_prime 1511 = Some 0).
Proof. apply (is_prime_decides 1511). lia. Defined.

(** From 2 on, [find_next_prime] always ends: with the first prime among the
    odd numbers from its first candidate up, or with the failure when no
    odd number from there to [2^32 - 1] is prime. *)
Theorem find_next_prime_first_prime n :
  2 <= n < 2^32 ->
  let n0 := if n mod 2 =? 0 then n + 1 else n in
  (exists r, find_next_prime n = Done r /\ Z.prime r /\ n0 <= r < 2^32 /\
             r mod 2 = 1 /\
             forall c, n0 <= c < r -> c mod 2 = 1 -> ~ Z.prime c) \/
  (find_next_prime n = Fail NoPrimeError /\
   forall c, n0 <= c < 2^32 -> c mod 2 = 1 -> ~ Z.prime c).
Proof.
  intros Hn. cbv zeta.
  pose proof (find_next_prime_spec n Hn) as H.
  rewrite first_candidate_spec in H by lia.
  destruct (find_next_prime n) as [r|e|]; simpl in H.
  - left. exists r. tauto.
  - right. destruct H as [-> H]. done.
  - done.
Qed.

Lemma find_next_prime_first_prime_witness :
  (exists r, find_next_prime 1500 = Done r /\ Z.prime r /\ 1501 <= r < 2^32 /\
             r mod 2 = 1 /\
             forall c, 1501 <= c < r -> c mod 2 = 1 -> ~ Z.prime c) \/
  (find_next_prime 1500 = Fail NoPrimeError /\
   forall c, 1501 <= c < 2^32 -> c mod 2 = 1 -> ~ Z.prime c).
Proof. apply (find_next_prime_first_prime 1500). lia. Defined.

(** ** [check_gcd] and [find_inverse] *)



(** Where its products fit 32 bits, [find_inverse] returns the inverse of
    [d] among the residues, or 0 when there is none. *)
Theorem find_inverse_scan d f :
  0 <= d -> 1 < f < 2^32 -> (f - 1) * d < 2^32 ->
  exists r, find_inverse d f = Some r /\
    ((0 < r < f /\ (r * d) mod f = 1) \/
     (r = 0 /\ forall j, 0 < j < f -> (j * d) mod f <> 1)).
Proof. intros Hd Hf Hfit. apply (find_inverse_spec d f Hd Hf Hfit). Qed.

Lemma find_inverse_scan_witness :
  exists r, find_inverse 3 10 = Some r /\
    ((0 < r < 10 /\ (r * 3) mod 10 = 1) \/
     (r = 0 /\ forall j, 0 < j < 10 -> (j * 3) mod 10 <> 1)).
Proof. apply (find_inverse_scan 3 10); lia. Defined.

(** The two functions agree where neither overflows. *)
Theorem check_gcd_agrees_with_find_inverse d f :
  0 <= d < 2^31 -> 1 < f < 2^31 -> (f - 1) * d < 2^32 ->
  check_gcd d f = find_inverse d f.
Proof. apply check_gcd_find_inverse. Qed.

Lemma check_gcd_agrees_with_find_inverse_witness :
  check_gcd 3 10 = find_inverse 3 10.
Proof. apply (check_gcd_agrees_with_find_inverse 3 10); lia. Defined.



(** ** [generate_keys] *)

(** For factors from 2 on, the overflow error is raised exactly when the
    bit lengths of the factors add up to more than 32. *)
Theorem generate_keys_overflow_iff p q :
  2 <= p < 2^32 -> 2 <= q < 2^32 ->
  (generate_keys p q = Fail OverflowError <-> 32 < bitlength p + bitlength q).
Proof. apply generate_keys_overflow. Qed.

Lemma generate_keys_overflow_iff_witness :
  generate_keys 65521 65537 = Fail OverflowError <->
  32 < bitlength 65521 + bitlength 65537.
Proof. apply (generate_keys_overflow_iff 65521 65537); lia. Defined.

(** For factors from 2 on that pass the check and a totient
    [f = (p-1)(q-1)] from 3 to [2^31 - 1], a key is printed: [e] is the
    smallest number from 2 on that is coprime to [f], and [d] is its
    inverse among the residues modulo [f]. *)
Theorem generate_keys_smallest_exponent p q :
  2 <= p < 2^32 -> 2 <= q < 2^32 -> bitlength p + bitlength q <= 32 ->
  3 <= (p - 1) * (q - 1) < 2^31 ->
  exists e d,
    generate_keys p q = Done (Keys e (p * q) d) /\
    2 <= e < (p - 1) * (q - 1) /\ Z.gcd e ((p - 1) * (q - 1)) = 1 /\
    0 < d < (p - 1) * (q - 1) /\ (d * e) mod ((p - 1) * (q - 1)) = 1 /\
    forall e', 2 <= e' < e -> Z.gcd e' ((p - 1) * (q - 1)) <> 1.
Proof.
  intros Hp Hq Hb Hf.
  destruct (generate_keys_spec p q Hp Hq Hb Hf) as (e & d & E & H).
  exists e, d. split; [exact E|exact H].
Qed.

Lemma generate_keys_smallest_exponent_witness :
  exists e d,
    generate_keys 1511 1709 = Done (Keys e (1511 * 1709) d) /\
    2 <= e < (1511 - 1) * (1709 - 1) /\
    Z.gcd e ((1511 - 1) * (1709 - 1)) = 1 /\
    0 < d < (1511 - 1) * (1709 - 1) /\
    (d * e) mod ((1511 - 1) * (1709 - 1)) = 1 /\
    forall e', 2 <= e' < e -> Z.gcd e' ((1511 - 1) * (1709 - 1)) <> 1.
Proof.
  apply (generate_keys_smallest_exponent 1511 1709);
    [lia|lia|vm_compute; discriminate|lia].
Defined.

(** Among the factors from 2 on that pass the check, with a totient below
    [2^31], the error for a missing exponent is raised only for a totient of
    2, that is for the factors 2 and 3. *)
Theorem generate_keys_no_exponent_iff p q :
  2 <= p < 2^32 -> 2 <= q < 2^32 -> bitlength p + bitlength q <= 32 ->
  (p - 1) * (q - 1) < 2^31 ->
  (generate_keys p q = Fail NoValidExponentError <-> (p - 1) * (q - 1) = 2).
Proof.
  intros Hp Hq Hb Hf.
  destruct (Z.le_gt_cases 3 ((p - 1) * (q - 1))) as [H3|H3].
  - destruct (generate_keys_spec p q Hp Hq Hb ltac:(lia)) as (e & d & -> & _).
    split; [discriminate|lia].
  - assert (Hpq : (p = 2 /\ q = 2) \/ (p = 2 /\ q = 3) \/ (p = 3 /\ q = 2)) by nia.
    destruct Hpq as [[-> ->]|[[-> ->]|[-> ->]]].
    + split; [vm_compute; discriminate|lia].
    + split; [lia|reflexivity].
    + split; [lia|reflexivity].
Qed.

Lemma generate_keys_no_exponent_iff_witness :
  generate_keys 2 3 = Fail NoValidExponentError <-> (2 - 1) * (3 - 1) = 2.
Proof.
  apply (generate_keys_no_exponent_iff 2 3);
    [lia|lia|vm_compute; discriminate|lia].
Defined.

(** ** The exponents of a key undo each other *)

Lemma fermat_power p m k :
  Z.prime p -> 0 <= k -> m ^ (1 + k * (p - 1)) mod p = m mod p.
Proof.
  intros Hp Hk. pose proof (Z.prime_ge_2 p Hp) as Hp2.
  rewrite Z.pow_add_r, Z.pow_1_r by nia.
  destruct (Z.eq_dec (m mod p) 0) as [E|E].
  - rewrite Z.mul_mod, E by lia. rewrite Z.mul_0_l. apply Z.mod_0_l. lia.
  - rewrite (Z.mul_comm k), Z.pow_mul_r by lia.
    rewrite Z.mul_mod, <- (Z.mod_pow_l (m ^ (p - 1))) by lia.
    rewrite Z.fermat_nz by done.
    rewrite Z.pow_1_l by lia. rewrite (Z.mod_small 1) by lia.
    rewrite Z.mul_1_r. apply Z.mod_mod. lia.
Qed.

Lemma rsa_exponents p q e d m :
  Z.prime p -> Z.prime q -> p <> q -> 0 <= e -> 0 <= d ->
  (d * e) mod ((p - 1) * (q - 1)) = 1 ->
  (m ^ e) ^ d mod (p * q) = m mod (p * q).
Proof.
  intros Hp Hq Hne He Hd Hinv.
  pose proof (Z.prime_ge_2 p Hp) as Hp2. pose proof (Z.prime_ge_2 q Hq) as Hq2.
  assert (Hf : 0 < (p - 1) * (q - 1)) by nia.
  set (k := d * e / ((p - 1) * (q - 1))).
  assert (Hk : 0 <= k) by (apply Z.div_pos; nia).
  assert (Et : e * d = 1 + k * ((p - 1) * (q - 1))).
  { pose proof (Z.div_mod (d * e) ((p - 1) * (q - 1)) ltac:(lia)) as H.
    rewrite Hinv in H. unfold k. lia. }
  rewrite <- Z.pow_mul_r, Et by lia.
  set (x := m ^ (1 + k * ((p - 1) * (q - 1)))).
  assert (Dp : (p | x - m)).
  { apply Z.mod_divide; [lia|]. rewrite Zminus_mod. unfold x.
    replace (k * ((p - 1) * (q - 1))) with (k * (q - 1) * (p - 1)) by ring.
    rewrite fermat_power by (done || nia).
    rewrite Z.sub_diag. apply Z.mod_0_l. lia. }
  assert (Dq : (q | x - m)).
  { apply Z.mod_divide; [lia|]. rewrite Zminus_mod. unfold x.
    replace (k * ((p - 1) * (q - 1))) with (k * (p - 1) * (q - 1)) by ring.
    rewrite fermat_power by (done || nia).
    rewrite Z.sub_diag. apply Z.mod_0_l. lia. }
  assert (C : Z.gcd q p = 1).
  { apply Z.coprime_prime_l; [done|]. intros Hdiv.
    apply Hne. symmetry. by apply Z.divide_prime_prime. }
  destruct Dp as [a Ha].
  assert (Da : (q | a)).
  { apply (Z.gauss q p a); [|exact C]. rewrite Z.mul_comm, <- Ha. exact Dq. }
  destruct Da as [b ->].
  replace x with (m + b * (p * q)) by lia.
  apply Z.mod_add. nia.
Qed.

Lemma ab_mod_n_spec a b n :
  0 <= a < 2^32 -> 0 <= b < 2^32 -> 0 < n < 2^32 ->
  ab_mod_n a b n = a ^ b mod n.
Proof.
  intros Ha Hb Hn. unfold ab_mod_n.
  rewrite (ab_mod_n_wide_spec a b n Ha Hb Hn).
  apply u32_small. pose proof (Z.mod_pos_bound (a ^ b) n ltac:(lia)). lia.
Qed.

Lemma rsa_block_round_trip p q e d m :
  Z.prime p -> Z.prime q -> p <> q -> p * q < 2^32 ->
  0 <= e < 2^32 -> 0 <= d < 2^32 ->
  (d * e) mod ((p - 1) * (q - 1)) = 1 ->
  0 <= m < p * q ->
  ab_mod_n (ab_mod_n m e (p * q)) d (p * q) = m.
Proof.
  intros Hp Hq Hne Hn He Hd Hinv Hm.
  pose proof (Z.prime_ge_2 p Hp). pose proof (Z.prime_ge_2 q Hq).
  assert (Hn0 : 0 < p * q < 2^32) by nia.
  rewrite (ab_mod_n_spec m e (p * q)) by lia.
  pose proof (Z.mod_pos_bound (m ^ e) (p * q) ltac:(lia)).
  rewrite ab_mod_n_spec by lia.
  rewrite Z.mod_pow_l.
  rewrite (rsa_exponents p q e d m) by (done || lia).
  apply Z.mod_small. lia.
Qed.

(** With a key of two distinct primes, [ab_mod_n] with the private exponent
    undoes [ab_mod_n] with the public one on every residue. *)
Theorem ab_mod_n_round_trip p q e d m :
  Z.prime p -> Z.prime q -> p <> q -> p * q < 2^32 ->
  0 <= e < 2^32 -> 0 <= d < 2^32 ->
  (d * e) mod ((p - 1) * (q - 1)) = 1 ->
  0 <= m < p * q ->
  ab_mod_n (ab_mod_n m e (p * q)) d (p * q) = m.
Proof. apply rsa_block_round_trip. Qed.

Lemma ab_mod_n_round_trip_witness :
  ab_mod_n (ab_mod_n 1234567 3 (1511 * 1709)) 1719387 (1511 * 1709) = 1234567.
Proof.
  apply (ab_mod_n_round_trip 1511 1709 3 1719387 1234567);
    try lia; try (apply prime_by_is_prime; [lia|vm_compute; reflexivity]).
  vm_compute. reflexivity.
Defined.

(** ** Fields of a buffer *)

(** The number whose bits [0 .. n-1] are [g k], [g (k+1)], ... *)
Fixpoint bits_value (g : Z -> bool) (k : Z) (n : nat) : Z :=
  match n with
  | O => 0
  | S n' => Z.b2z (g k) + 2 * bits_value g (k + 1) n'
  end.

(** The field of [n] bits that starts at bit [k] of a buffer. *)
Definition field (mem : list Z) (k n : Z) : Z :=
  bits_value (buffer_bit mem) k (Z.to_nat n).

Lemma testbit_bits_value g n : forall k j,
  0 <= j ->
  Z.testbit (bits_value g k n) j = (j <? Z.of_nat n) && g (k + j).
Proof.
  induction n as [|n IH]; intros k j Hj.
  - simpl. rewrite Z.bits_0. by destruct (Z.ltb_spec j (Z.of_nat 0)); [lia|].
  - cbn [bits_value]. destruct (Z.eq_dec j 0) as [->|Hne].
    + rewrite Z.add_b2z_double_bit0, Z.add_0_r. 
      by destruct (Z.ltb_spec 0 (Z.of_nat (S n))); [|lia].
    + replace j with (Z.succ (j - 1)) at 1 by lia.
      rewrite Z.add_comm, Z.testbit_succ_r by lia.
      rewrite IH by lia.
      replace (k + 1 + (j - 1)) with (k + j) by lia. f_equal.
      destruct (Z.ltb_spec (j - 1) (Z.of_nat n)),
        (Z.ltb_spec j (Z.of_nat (S n))); lia || done.
Qed.

Lemma testbit_field mem k n j :
  0 <= n -> 0 <= j ->
  Z.testbit (field mem k n) j = (j <? n) && buffer_bit mem (k + j).
Proof.
  intros Hn Hj. unfold field. rewrite testbit_bits_value by done.
  by rewrite Z2Nat.id.
Qed.

Lemma field_range mem k n : 0 <= n -> 0 <= field mem k n < 2^n.
Proof.
  intros Hn. apply bits_range; [done|]. intros j Hj.
  rewrite testbit_field by lia. by destruct (Z.ltb_spec j n); [lia|].
Qed.

(** [readbits] returns the field under the cursor. *)
Lemma readbits_field mem c n :
  cursor_ok c -> 0 <= n <= 32 ->
  bit_index c + n <= 8 * Z.of_nat (length mem) ->
  readbits mem c n = Some (field mem (bit_index c) n, seek c n).
Proof.
  intros Hc Hn Hmem.
  destruct (readbits_spec mem c n Hc Hn Hmem) as (v & -> & Hbits).
  do 2 f_equal. apply Z.bits_inj'. intros j Hj.
  rewrite (Hbits j Hj), testbit_field by lia. reflexivity.
Qed.

(** A field depends on the bits it covers only. *)
Lemma field_ext mem mem' k n :
  0 <= n ->
  (forall t, k <= t < k + n -> buffer_bit mem t = buffer_bit mem' t) ->
  field mem k n = field mem' k n.
Proof.
  intros Hn H. apply Z.bits_inj'. intros j Hj.
  rewrite !testbit_field by lia.
  destruct (Z.ltb_spec j n); [|done]. simpl. apply H. lia.
Qed.

(** A value below [2^n] whose bits are those of the buffer is the field. *)
Lemma field_unique mem k n v :
  0 <= n -> 0 <= v < 2^n ->
  (forall i, 0 <= i < n -> buffer_bit mem (k + i) = Z.testbit v i) ->
  field mem k n = v.
Proof.
  intros Hn Hv H. apply Z.bits_inj'. intros j Hj.
  rewrite testbit_field by lia.
  destruct (Z.ltb_spec j n); simpl.
  - apply H. lia.
  - symmetry. destruct (Z.eq_dec v 0) as [->|]; [apply Z.bits_0|].
    apply Z.bits_above_log2; [lia|].
    assert (Z.log2 v < n) by (apply Z.log2_lt_pow2; lia). lia.
Qed.

(** ** Buffers and their bits *)

Lemma buffer_bit_lookup mem mem' k :
  mem !! Z.to_nat (k / 8) = mem' !! Z.to_nat (k / 8) ->
  buffer_bit mem k = buffer_bit mem' k.
Proof. unfold buffer_bit. by intros ->. Qed.

Lemma buffer_bit_app_l (l1 l2 : list Z) k :
  0 <= k < 8 * Z.of_nat (length l1) ->
  buffer_bit (l1 ++ l2) k = buffer_bit l1 k.
Proof.
  intros Hk. apply buffer_bit_lookup. apply lookup_app_l. 
  assert (k / 8 < Z.of_nat (length l1)) by (apply Z.div_lt_upper_bound; lia).
  assert (0 <= k / 8) by (apply Z.div_pos; lia). lia.
Qed.

Lemma buffer_bit_take (l : list Z) (m : nat) k :
  0 <= k < 8 * Z.of_nat m -> buffer_bit (take m l) k = buffer_bit l k.
Proof.
  intros Hk. apply buffer_bit_lookup. rewrite lookup_take.
  assert (k / 8 < Z.of_nat m) by (apply Z.div_lt_upper_bound; lia).
  assert (0 <= k / 8) by (apply Z.div_pos; lia).
  destruct (decide (Z.to_nat (k / 8) < m)%nat); [done|lia].
Qed.

Lemma buffer_bit_malloc_zeroed size k : buffer_bit (malloc zeroed size) k = false.
Proof.
  unfold buffer_bit, malloc. rewrite list_lookup_fmap.
  destruct (seq 0 (Z.to_nat size) !! Z.to_nat (k / 8)); simpl; apply Z.bits_0.
Qed.

Lemma length_malloc old size : length (malloc old size) = Z.to_nat size.
Proof. unfold malloc. by rewrite length_fmap, length_seq. Qed.

Lemma malloc_u8 old size : Forall is_u8 (malloc old size).
Proof.
  unfold malloc. apply Forall_fmap, Forall_forall. intros i _. apply u8_range.
Qed.

(** Two buffers of bytes with the same bits are the same. *)
Lemma bytes_eq_of_bits (l1 l2 : list Z) :
  Forall is_u8 l1 -> Forall is_u8 l2 -> length l1 = length l2 ->
  (forall k, 0 <= k < 8 * Z.of_nat (length l1) ->
             buffer_bit l1 k = buffer_bit l2 k) ->
  l1 = l2.
Proof.
  intros H1 H2 Hlen Hbits. apply list_eq. intros i.
  destruct (decide (i < length l1)%nat) as [Hi|Hi].
  - destruct (lookup_lt_is_Some_2 l1 i Hi) as [b1 E1].
    destruct (lookup_lt_is_Some_2 l2 i ltac:(lia)) as [b2 E2].
    rewrite E1, E2. f_equal.
    pose proof (Forall_lookup_1 _ _ _ _ H1 E1) as R1.
    pose proof (Forall_lookup_1 _ _ _ _ H2 E2) as R2.
    unfold is_u8 in R1, R2.
    transitivity (b1 mod 2^8); [symmetry; apply Z.mod_small; lia|].
    transitivity (b2 mod 2^8); [|apply Z.mod_small; lia].
    apply Z.bits_inj'. intros j Hj.
    destruct (Z.lt_ge_cases j 8).
    + rewrite !Z.mod_pow2_bits_low by lia.
      specialize (Hbits (8 * Z.of_nat i + j) ltac:(lia)).
      unfold buffer_bit in Hbits.
      replace ((8 * Z.of_nat i + j) / 8) with (Z.of_nat i) in Hbits by dlia.
      replace ((8 * Z.of_nat i + j) mod 8) with j in Hbits by dlia.
      rewrite Nat2Z.id, E1, E2 in Hbits. exact Hbits.
    + rewrite !Z.mod_pow2_bits_high by lia. reflexivity.
  - rewrite !(proj2 (lookup_ge_None _ _)) by lia. reflexivity.
Qed.

(** ** The two block loops *)

(** The cursor at bit [x] of a buffer. *)
Definition at_bit (x : Z) : cursor := seek (Cursor 0 0) x.

Lemma at_bit_ok x : cursor_ok (at_bit x).
Proof. apply seek_ok. Qed.

Lemma at_bit_0 : at_bit 0 = Cursor 0 0.
Proof. reflexivity. Qed.

Lemma bit_index_at_bit x : 0 <= x -> bit_index (at_bit x) = x.
Proof.
  intros Hx. unfold at_bit. rewrite bit_index_seek; [done| |done].
  unfold cursor_ok. simpl. lia.
Qed.

Lemma seek_at_bit x n : 0 <= x -> 0 <= n -> seek (at_bit x) n = at_bit (x + n).
Proof.
  intros Hx Hn. unfold at_bit. apply seek_seek; [|done|done].
  unfold cursor_ok. simpl. lia.
Qed.

Lemma cur_pos_at_bit x : 0 <= x -> Z.of_nat (cur_pos (at_bit x)) = x / 8.
Proof.
  intros Hx. unfold at_bit, seek, bit_index. cbn [cur_pos cur_bit].
  rewrite Z2Nat.id; [f_equal; lia|apply Z.div_pos; lia].
Qed.

(** One block: the field under the source cursor is read, transformed and
    or-ed into the destination. *)
Lemma crypt_block_spec src rbits wbits key n x y mem :
  0 <= x -> 0 <= y -> 0 <= rbits <= 32 -> 0 <= wbits <= 32 ->
  x + rbits <= 8 * Z.of_nat (length src) ->
  y + wbits <= 8 * Z.of_nat (length mem) ->
  exists mem',
    crypt_block src rbits wbits key n (Xfer (at_bit x) (at_bit y) mem)
    = Some (Xfer (at_bit (x + rbits)) (at_bit (y + wbits)) mem') /\
    length mem' = length mem /\
    (Forall is_u8 mem -> Forall is_u8 mem') /\
    forall t, 0 <= t ->
      buffer_bit mem' t =
      buffer_bit mem t ||
      ((y <=? t) && (t <? y + wbits) &&
       Z.testbit (ab_mod_n (field src x rbits) key n) (t - y)).
Proof.
  intros Hx Hy Hr Hw Hsrc Hmem. unfold crypt_block. cbn [x_src x_dst x_mem].
  rewrite readbits_field
    by (try apply at_bit_ok; try rewrite bit_index_at_bit; done || lia).
  rewrite bit_index_at_bit, seek_at_bit by lia.
  cbn [mbind option_bind].
  destruct (writebits_spec mem (at_bit y) wbits
              (ab_mod_n (field src x rbits) key n))
    as (mem' & Hw' & Hlen & Hu8 & Hbits);
    [apply at_bit_ok|lia|rewrite bit_index_at_bit; lia|].
  rewrite Hw'. cbn [mbind option_bind].
  rewrite seek_at_bit by lia.
  exists mem'. split; [done|]. split; [done|]. split; [done|].
  intros t Ht. rewrite (Hbits t Ht), bit_index_at_bit by lia. done.
Qed.

(** The number of rounds is bounded by the length: [k] blocks of [s] bits
    that start within [len] bytes are at most [8 * (len / s) + 7]. *)
Lemma rounds_bound k s len :
  1 <= s -> 0 <= len -> 0 <= k -> k * s < 8 * len -> k <= 8 * (len / s) + 7.
Proof.
  intros Hs Hlen Hk H.
  pose proof (Z.div_mod len s ltac:(lia)) as Hdm.
  pose proof (Z.mod_pos_bound len s ltac:(lia)) as Hm.
  destruct (Z.le_gt_cases k (8 * (len / s) + 7)) as [|Hgt]; [done|exfalso].
  assert (s * (8 * (len / s) + 8) <= s * k)
    by (apply Z.mul_le_mono_nonneg_l; lia).
  lia.
Qed.

Section BlockLoops.
Variables (n s w : Z).
Hypothesis Hs : 1 <= s <= 31.
Hypothesis Hw : w = s + 1.

(** *** The loop of [encrypt_file] *)

Section Encrypt.
Variables (e : Z) (buf : list Z) (len : Z) (mem0 : list Z).
Hypothesis Hlen : 0 <= len < 2^63.
Hypothesis Hbuf : 0 < len -> 8 * len + 31 <= 8 * Z.of_nat (length buf).
Hypothesis Hmem0 : 8 * len + 8 * (len / s) + 38 <= 8 * Z.of_nat (length mem0).
Hypothesis Hclear : forall t, buffer_bit mem0 t = false.
Hypothesis Hbytes : Forall is_u8 mem0.

(** After [k] rounds: both cursors have advanced by [k] blocks, block [j]
    of the destination holds the transformed block [j] of the source, and
    the destination is clear from the cursor on. *)
Definition encrypt_inv (k : Z) (st : xfer) : Prop :=
  exists mem,
    st = Xfer (at_bit (k * s)) (at_bit (k * w)) mem /\
    0 <= k /\ length mem = length mem0 /\ Forall is_u8 mem /\
    (forall j i, 0 <= j < k -> 0 <= i < w ->
       buffer_bit mem (j * w + i)
       = Z.testbit (ab_mod_n (field buf (j * s) s) e n) i) /\
    (forall t, k * w <= t -> buffer_bit mem t = false).

Lemma encrypt_round k st :
  encrypt_inv k st -> k * s < 8 * len ->
  exists st', crypt_block buf s w e n st = Some st' /\ encrypt_inv (k + 1) st'.
Proof using Hs Hw Hlen Hbuf Hmem0.
  intros (mem & -> & Hk & Hl & Hu8 & Hdone & Hclean) Hgo.
  assert (0 <= k * s) by nia. assert (0 <= k * w) by nia.
  pose proof (rounds_bound k s len ltac:(lia) ltac:(lia) Hk Hgo) as Hkb.
  assert (Hkw : k * w = k * s + k) by (subst w; ring).
  destruct (crypt_block_spec buf s w e n (k * s) (k * w) mem)
    as (mem' & E & Hl' & Hu8' & Hbits); try lia.
  exists (Xfer (at_bit (k * s + s)) (at_bit (k * w + w)) mem').
  split; [exact E|]. exists mem'. split.
  { f_equal; f_equal; ring. }
  split; [lia|]. split; [lia|]. split; [by apply Hu8'|]. split.
  - intros j i Hj Hi.
    assert (0 <= j * w) by nia.
    rewrite Hbits by lia.
    destruct (Z.eq_dec j k) as [->|Hne].
    + rewrite Hclean by lia.
      destruct (Z.leb_spec (k * w) (k * w + i)); [|lia].
      destruct (Z.ltb_spec (k * w + i) (k * w + w)); [|lia].
      simpl. f_equal. lia.
    + assert (j * w + w <= k * w).
      { replace (j * w + w) with ((j + 1) * w) by ring.
        apply Z.mul_le_mono_nonneg_r; lia. }
      rewrite Hdone by lia.
      destruct (Z.leb_spec (k * w) (j * w + i)); [lia|].
      by rewrite Bool.orb_false_r.
  - intros t Ht.
    replace ((k + 1) * w) with (k * w + w) in Ht by ring.
    rewrite Hbits by lia. rewrite Hclean by lia.
    destruct (Z.ltb_spec t (k * w + w)); [lia|].
    by rewrite Bool.andb_false_r.
Qed.

Lemma encrypt_loop_spec :
  exists k mem,
    while (encrypt_body buf len s w e n) (2^67)
          (Xfer (at_bit 0) (at_bit 0) mem0)
    = Some (Some (Xfer (at_bit (k * s)) (at_bit (k * w)) mem)) /\
    0 <= k /\ 8 * len <= k * s < 8 * len + s /\
    length mem = length mem0 /\ Forall is_u8 mem /\
    (forall j i, 0 <= j < k -> 0 <= i < w ->
       buffer_bit mem (j * w + i)
       = Z.testbit (ab_mod_n (field buf (j * s) s) e n) i).
Proof using Hs Hw Hlen Hbuf Hmem0 Hclear Hbytes.
  destruct (while_rule (encrypt_body buf len s w e n)
              (fun st => exists k, encrypt_inv k st /\ k * s < 8 * len + s)
              (fun r => exists k st, r = Some st /\ encrypt_inv k st /\
                                     8 * len <= k * s < 8 * len + s)
              (fun st => 8 * len + s - bit_index (x_src st))
              ) with (bound := (2^67)%positive)
              (s := Xfer (at_bit 0) (at_bit 0) mem0)
    as (r & Hr & k & st & -> & (mem & -> & Hk & Hl & Hu8 & Hdone & _) & HK).
  - intros st (k & HI & Hlt).
    pose proof HI as (mem & -> & Hk & _). cbn [x_src].
    assert (0 <= k * s) by nia.
    rewrite bit_index_at_bit by done. split; [lia|].
    unfold encrypt_body. cbn [x_src]. rewrite cur_pos_at_bit by done.
    destruct (Z.ltb_spec (k * s / 8) len) as [Hgo|Hstop].
    + assert (k * s < 8 * len) by dlia.
      destruct (encrypt_round k _ HI ltac:(done)) as (st' & -> & HI').
      split.
      * exists (k + 1). split; [done|]. lia.
      * destruct HI' as (mem' & -> & _). cbn [x_src].
        rewrite bit_index_at_bit by nia. lia.
    + exists k, (Xfer (at_bit (k * s)) (at_bit (k * w)) mem).
      split; [done|]. split; [done|]. dlia.
  - exists 0. split; [|lia]. exists mem0.
    split; [done|]. split; [lia|]. split; [done|]. split; [done|].
    split; [intros; lia|]. intros t _. apply Hclear.
  - cbn [x_src]. rewrite bit_index_at_bit by lia.
    change (Z.pos (2^67)) with (2^67). lia.
  - exists k, mem. split; [exact Hr|]. done.
Qed.
End Encrypt.

(** *** The loop of [decrypt_file] *)

Section Decrypt.
Variables (d : Z) (cbuf pbuf : list Z) (len blocks : Z) (mem0 : list Z).
Hypothesis Hlen : 0 <= len < 2^63.
Hypothesis Hblocks : 0 <= blocks /\ 8 * len <= blocks * s.
Hypothesis Hcbuf : blocks * w + 32 <= 8 * Z.of_nat (length cbuf).
(** The first [blocks] blocks of the source decrypt to the blocks of
    [pbuf]. *)
Hypothesis Hplain : forall j, 0 <= j < blocks ->
  ab_mod_n (field cbuf (j * w) w) d n = field pbuf (j * s) s.
Hypothesis Hmem0 : 8 * len + 38 <= 8 * Z.of_nat (length mem0).
Hypothesis Hclear : forall t, buffer_bit mem0 t = false.
Hypothesis Hbytes : Forall is_u8 mem0.

Definition decrypt_inv (k : Z) (st : xfer) : Prop :=
  exists mem,
    st = Xfer (at_bit (k * w)) (at_bit (k * s)) mem /\
    0 <= k /\ length mem = length mem0 /\ Forall is_u8 mem /\
    (forall t, 0 <= t < Z.min k blocks * s ->
       buffer_bit mem t = buffer_bit pbuf t) /\
    (forall t, k * s <= t -> buffer_bit mem t = false).

Lemma decrypt_round k st :
  decrypt_inv k st -> k * s < 8 * len + 8 ->
  exists st', crypt_block cbuf w s d n st = Some st' /\ decrypt_inv (k + 1) st'.
Proof using Hs Hw Hlen Hblocks Hcbuf Hplain Hmem0.
  intros (mem & -> & Hk & Hl & Hu8 & Hdone & Hclean) Hgo.
  assert (0 <= k * s) by nia. assert (0 <= k * w) by nia.
  assert (Hread : k * w + w <= blocks * w + 32).
  { destruct (Z.lt_ge_cases k blocks).
    - assert ((k + 1) * w <= blocks * w)
        by (apply Z.mul_le_mono_nonneg_r; lia).
      lia.
    - destruct (Z.eq_dec k blocks) as [->|]; [lia|].
      assert (Hd : 1 <= k - blocks) by lia.
      assert ((k - blocks) * s <= 7) by lia.
      assert (1 * s <= (k - blocks) * s)
        by (apply Z.mul_le_mono_nonneg_r; lia).
      assert ((k - blocks) * 1 <= (k - blocks) * s)
        by (apply Z.mul_le_mono_nonneg_l; lia).
      replace (k * w + w) with (blocks * w + ((k - blocks) * s + (k - blocks) + w))
        by (subst w; ring).
      lia. }
  destruct (crypt_block_spec cbuf w s d n (k * w) (k * s) mem)
    as (mem' & E & Hl' & Hu8' & Hbits); try lia.
  exists (Xfer (at_bit (k * w + w)) (at_bit (k * s + s)) mem').
  split; [exact E|]. exists mem'. split.
  { f_equal; f_equal; ring. }
  split; [lia|]. split; [lia|]. split; [by apply Hu8'|]. split.
  - intros t Ht. rewrite Hbits by lia.
    destruct (Z.lt_ge_cases t (k * s)) as [Hold|Hnew].
    + destruct (Z.leb_spec (k * s) t); [lia|]. rewrite Bool.orb_false_r.
      apply Hdone. split; [lia|].
      destruct (Z.lt_ge_cases k blocks).
      * rewrite Z.min_l by lia. lia.
      * rewrite Z.min_r in * by lia. lia.
    + assert (k < blocks).
      { destruct (Z.lt_ge_cases k blocks); [done|].
        rewrite Z.min_r in Ht by lia.
        assert (blocks * s <= k * s) by (apply Z.mul_le_mono_nonneg_r; lia).
        lia. }
      rewrite Z.min_l in Ht by lia.
      replace ((k + 1) * s) with (k * s + s) in Ht by ring.
      rewrite Hclean by lia.
      destruct (Z.leb_spec (k * s) t); [|lia].
      destruct (Z.ltb_spec t (k * s + s)); [|lia]. simpl.
      rewrite Hplain by lia. rewrite testbit_field by lia.
      destruct (Z.ltb_spec (t - k * s) s); [|lia]. simpl.
      f_equal. lia.
  - intros t Ht.
    replace ((k + 1) * s) with (k * s + s) in Ht by ring.
    rewrite Hbits by lia. rewrite Hclean by lia.
    destruct (Z.ltb_spec t (k * s + s)); [lia|].
    by rewrite Bool.andb_false_r.
Qed.

Lemma decrypt_loop_spec :
  exists st,
    while (decrypt_body cbuf (Z.to_nat len) w s d n) (2^67)
          (Xfer (at_bit 0) (at_bit 0) mem0)
    = Some (Some st) /\
    length (x_mem st) = length mem0 /\ Forall is_u8 (x_mem st) /\
    forall t, 0 <= t < 8 * len ->
      buffer_bit (x_mem st) t = buffer_bit pbuf t.
Proof using Hs Hw Hlen Hblocks Hcbuf Hplain Hmem0 Hclear Hbytes.
  destruct (while_rule (decrypt_body cbuf (Z.to_nat len) w s d n)
              (fun st => exists k, decrypt_inv k st /\ k * s < 8 * len + 8 + s)
              (fun r => exists k st, r = Some st /\ decrypt_inv k st /\
                                     8 * len + 8 <= k * s)
              (fun st => 8 * len + 8 + s - bit_index (x_dst st))
              ) with (bound := (2^67)%positive)
              (s := Xfer (at_bit 0) (at_bit 0) mem0)
    as (r & Hr & k & st & -> & (mem & -> & Hk & Hl & Hu8 & Hdone & _) & HK).
  - intros st (k & HI & Hlt).
    pose proof HI as (mem & -> & Hk & _). cbn [x_dst].
    assert (0 <= k * s) by nia.
    rewrite bit_index_at_bit by done. split; [lia|].
    unfold decrypt_body. cbn [x_dst].
    pose proof (cur_pos_at_bit (k * s) ltac:(done)) as Hpos.
    destruct (decide (cur_pos (at_bit (k * s)) <= Z.to_nat len)%nat)
      as [Hgo|Hstop].
    + assert (k * s < 8 * len + 8) by dlia.
      destruct (decrypt_round k _ HI ltac:(done)) as (st' & -> & HI').
      split.
      * exists (k + 1). split; [done|]. lia.
      * destruct HI' as (mem' & -> & _). cbn [x_dst].
        rewrite bit_index_at_bit by nia. lia.
    + exists k, (Xfer (at_bit (k * w)) (at_bit (k * s)) mem).
      split; [done|]. split; [done|]. dlia.
  - exists 0. split; [|lia]. exists mem0.
    split; [done|]. split; [lia|]. split; [done|]. split; [done|].
    split; [intros; lia|]. intros t _. apply Hclear.
  - cbn [x_dst]. rewrite bit_index_at_bit by lia.
    change (Z.pos (2^67)) with (2^67). lia.
  - exists (Xfer (at_bit (k * w)) (at_bit (k * s)) mem).
    split; [exact Hr|]. cbn [x_mem]. split; [done|]. split; [done|].
    intros t Ht. apply Hdone. split; [lia|].
    destruct (Z.lt_ge_cases k blocks).
    + rewrite Z.min_l by lia. lia.
    + rewrite Z.min_r by lia. lia.
Qed.
End Decrypt.
End BlockLoops.

(** ** The two commands on a file *)

Lemma read_file_spec file old :
  exists buf,
    read_file file old = (buf, Z.of_nat (length file)) /\
    (0 < Z.of_nat (length file) ->
     exists slack, buf = file ++ slack /\ length slack = 8%nat).
Proof.
  unfold read_file.
  destruct (Z.eqb_spec (Z.of_nat (length file)) 0) as [E|E].
  - exists []. rewrite E. split; [done|lia].
  - eexists. split; [done|]. intros _. eexists. split; [done|].
    rewrite length_drop, length_malloc. lia.
Qed.

Lemma bitsize_widths n :
  2 <= n < 2^32 ->
  2 <= bitsize n <= 32 /\ u32 (bitsize n - 1) = bitsize n - 1 /\
  2 ^ (bitsize n - 1) <= n < 2 ^ bitsize n.
Proof.
  intros Hn. pose proof (bitsize_bounds n Hn) as Hb.
  destruct (bitsize_range n ltac:(lia)) as [E|E].
  - rewrite E in Hb. simpl in Hb. lia.
  - split; [done|]. split; [apply u32_small; lia|done].
Qed.

Lemma u64_eqm x : exists k, u64 x = x + k * 2^64.
Proof.
  exists (- (x / 2^64)). unfold u64.
  pose proof (Z.div_mod x (2^64) ltac:(lia)). lia.
Qed.

(** The check accepts a file whose data is at most [len / dstbits + 9]
    bytes away from the length in its header, as long as this tolerance
    fits an [int]. *)
Lemma corrupted_within_tolerance len buflen dstbits :
  0 <= len < 2^63 -> 1 <= dstbits -> len / dstbits + 9 < 2^31 ->
  Z.abs (len - (buflen - 8)) <= len / dstbits + 9 ->
  corrupted len buflen dstbits = false.
Proof.
  intros Hlen Hbits Htol Hdiff.
  assert (Hq : 0 <= len / dstbits) by (apply Z.div_pos; lia).
  assert (L : lendiff len buflen = len - (buflen - 8)).
  { unfold lendiff.
    destruct (u64_eqm len) as [k1 E1]. destruct (u64_eqm (buflen - 8)) as [k2 E2].
    destruct (u64_eqm (u64 len - u64 (buflen - 8))) as [k3 E3].
    apply i32_unique with (k := (k2 - k1 - k3) * 2^32); [|lia].
    rewrite E3, E1, E2. lia. }
  assert (M : maxdiff len dstbits = len / dstbits + 9).
  { unfold maxdiff. rewrite Z.quot_div_nonneg by lia.
    assert (len / dstbits <= len).
    { apply Z.div_le_upper_bound; [lia|].
      rewrite <- (Z.mul_1_l len) at 1. apply Z.mul_le_mono_nonneg_r; lia. }
    rewrite (i64_small (len / dstbits)) by lia.
    rewrite (i64_small (len / dstbits + 1)) by lia.
    rewrite u64_small by lia. rewrite i32_small; lia. }
  unfold corrupted. rewrite L, M. rewrite i32_small by lia.
  destruct (Z.ltb_spec len 0); [lia|].
  destruct (Z.ltb_spec (len - (buflen - 8)) (- (len / dstbits + 9))); [lia|].
  destruct (Z.ltb_spec (len / dstbits + 9) (len - (buflen - 8))); [lia|].
  reflexivity.
Qed.

Section FileRoundTrip.
Variables (n e d : Z).
Hypothesis Hn : 2 <= n < 2^32.
Hypothesis He : 0 <= e < 2^32.
(** The exponents undo each other on the plaintext blocks. *)
Hypothesis Hkey : forall m, 0 <= m < 2 ^ (bitsize n - 1) ->
  ab_mod_n (ab_mod_n m e n) d n = m.

(** What [encrypt_file] writes: the length of the file, then at least as
    many bytes as the [blocks] encrypted blocks take; block [j] of these
    bytes is the encryption of block [j] of the buffer the file was read
    into. *)
Lemma encrypt_file_blocks file old_src :
  Z.of_nat (length file) < 2^31 ->
  let len := Z.of_nat (length file) in
  let w := bitsize n in
  let s := bitsize n - 1 in
  exists blocks cipher,
    encrypt_file file old_src zeroed e n = Done (le_encode 8 len ++ cipher) /\
    0 <= blocks /\ 8 * len <= blocks * s < 8 * len + s /\
    Z.of_nat (length cipher) = blocks * w / 8 + 1 /\
    length cipher <> 0%nat /\
    Z.of_nat (length cipher) <= len + len / s + 5 /\
    forall j, 0 <= j < blocks ->
      field cipher (j * w) w
      = ab_mod_n (field (read_file file old_src).1 (j * s) s) e n.
Proof using Hn He.
  intros Hlen len w s.
  destruct (bitsize_widths n Hn) as (Hw & Hu & Hpow).
  change (bitsize n - 1) with s in Hu, Hpow. fold w in Hw, Hpow.
  assert (Hs : 1 <= s <= 31) by (unfold s; lia).
  assert (Hws : w = s + 1) by (unfold s; lia).
  destruct (read_file_spec file old_src) as (buf & Erf & Hbuf). fold len in Erf, Hbuf.
  unfold encrypt_file. rewrite Erf. cbv beta iota zeta. cbn [fst].
  change (bitsize n - 1) with s. rewrite Hu. fold w.
  assert (Hq : 0 <= len / s <= len).
  { split; [apply Z.div_pos; lia|]. apply Z.div_le_upper_bound; [lia|].
    rewrite <- (Z.mul_1_l len) at 1. apply Z.mul_le_mono_nonneg_r; lia. }
  rewrite Z.quot_div_nonneg by lia.
  rewrite (u64_small (8 + len / s)), (u32_small (8 + len / s)) by lia.
  rewrite (u64_small (len + (8 + len / s))) by lia.
  set (mem0 := malloc zeroed (len + (8 + len / s))).
  assert (Hl0 : Z.of_nat (length mem0) = len + (8 + len / s))
    by (unfold mem0; rewrite length_malloc; lia).
  destruct (encrypt_loop_spec n s w Hs Hws e buf len mem0)
    as (k & mem & Hloop & Hk & HK & Hl & Hu8 & Hbits).
  - lia.
  - intros Hpos. destruct (Hbuf Hpos) as (slack & -> & Hsl).
    rewrite length_app. lia.
  - lia.
  - intros t. apply buffer_bit_malloc_zeroed.
  - apply malloc_u8.
  - change (Cursor 0 0) with (at_bit 0). rewrite Hloop. cbn [x_dst x_mem].
    assert (0 <= k * s) by nia. assert (0 <= k * w) by nia.
    assert (Hkb : k <= 8 * (len / s) + 8).
    { destruct (Z.eq_dec k 0) as [->|]; [lia|].
      pose proof (rounds_bound (k - 1) s len ltac:(lia) ltac:(lia) ltac:(lia)
                    ltac:(lia)). lia. }
    assert (Hkw : k * w = k * s + k) by (rewrite Hws; ring).
    pose proof (cur_pos_at_bit (k * w) ltac:(done)) as Hpos.
    assert (Hend : k * w / 8 + 1 <= len + len / s + 5) by dlia.
    destruct (decide (S (cur_pos (at_bit (k * w))) <= length mem)%nat)
      as [Hfit|Hfit]; [|lia].
    exists k, (take (S (cur_pos (at_bit (k * w)))) mem).
    split; [done|]. split; [done|]. split; [done|].
    rewrite length_take. split; [lia|]. split; [lia|]. split; [lia|].
    intros j Hj.
    assert (0 <= j * w) by nia.
    assert (j * w + w <= k * w).
    { replace (j * w + w) with ((j + 1) * w) by ring.
      apply Z.mul_le_mono_nonneg_r; lia. }
    apply field_unique; [lia| |].
    + pose proof (field_range buf (j * s) s ltac:(lia)) as Hf.
      assert (2 ^ s <= 2 ^ 31) by (apply Z.pow_le_mono_r; lia).
      rewrite ab_mod_n_spec by lia.
      pose proof (Z.mod_pos_bound (field buf (j * s) s ^ e) n ltac:(lia)).
      lia.
    + intros i Hi. rewrite buffer_bit_take by dlia.
      apply Hbits; lia.
Qed.

(** Encrypting a file and decrypting the result gives back the file, when
    the two fresh output buffers are clear. What the input buffers hold
    after the data does not matter. *)
Lemma file_round_trip file old_src old_src' :
  Forall is_u8 file -> Z.of_nat (length file) < 2^31 - 9 ->
  exists cipher,
    encrypt_file file old_src zeroed e n = Done cipher /\
    decrypt_file cipher old_src' zeroed d n = Done file.
Proof using Hn He Hkey.
  intros Hfile Hlen.
  destruct (encrypt_file_blocks file old_src ltac:(lia))
    as (blocks & cipher & Henc & Hb & HB & Hcl & Hcne & Hcb & Hfields).
  set (len := Z.of_nat (length file)) in *.
  set (s := bitsize n - 1) in *. set (w := bitsize n) in *.
  set (pbuf := (read_file file old_src).1) in *.
  destruct (bitsize_widths n Hn) as (Hw & Hu & Hpow).
  change (bitsize n - 1) with s in Hu, Hpow. fold w in Hw, Hpow.
  assert (Hs : 1 <= s <= 31) by (unfold s; lia).
  assert (Hws : w = s + 1) by (unfold s; lia).
  assert (Hq : 0 <= len / s <= len).
  { split; [apply Z.div_pos; lia|]. apply Z.div_le_upper_bound; [lia|].
    rewrite <- (Z.mul_1_l len) at 1. apply Z.mul_le_mono_nonneg_r; lia. }
  assert (0 <= blocks * w) by nia. assert (0 <= blocks * s) by nia.
  assert (Hbw : blocks * w = blocks * s + blocks) by (rewrite Hws; ring).
  assert (Hlen0 : 0 <= len) by (unfold len; lia).
  assert (Hclow : len + 1 <= Z.of_nat (length cipher)) by dlia.
  exists (le_encode 8 len ++ cipher). split; [exact Henc|].
  unfold decrypt_file.
  destruct (read_file_spec (le_encode 8 len ++ cipher) old_src')
    as (buf' & Erf & Hbuf').
  rewrite Erf. cbv beta iota zeta. change (bitsize n - 1) with s. rewrite Hu.
  fold w.
  rewrite length_app, length_le_encode in Erf, Hbuf' |- *.
  destruct Hbuf' as (slack & -> & Hslack); [lia|].
  rewrite <- (assoc_L (++)), load_off_t_header by lia.
  rewrite drop_app_length' by (symmetry; apply length_le_encode).
  rewrite corrupted_within_tolerance by lia.
  rewrite (u64_small (len + 8)) by lia.
  set (mem0 := malloc zeroed (len + 8)).
  change (Cursor 0 0) with (at_bit 0).
  destruct (decrypt_loop_spec n s w Hs Hws d (cipher ++ slack) pbuf len blocks mem0)
    as (st & -> & Hl & Hu8 & Hbits).
  - lia.
  - lia.
  - rewrite length_app. dlia.
  - intros j Hj.
    assert (0 <= j * w) by nia.
    assert (j * w + w <= blocks * w).
    { replace (j * w + w) with ((j + 1) * w) by ring.
      apply Z.mul_le_mono_nonneg_r; lia. }
    rewrite (field_ext (cipher ++ slack) cipher) by
      (lia || (intros t Ht; apply buffer_bit_app_l; dlia)).
    rewrite Hfields by done. apply Hkey. apply field_range. lia.
  - unfold mem0. rewrite length_malloc. lia.
  - intros t. apply buffer_bit_malloc_zeroed.
  - apply malloc_u8.
  - f_equal. unfold mem0 in Hl. rewrite length_malloc in Hl.
    apply bytes_eq_of_bits.
    + by apply Forall_take.
    + exact Hfile.
    + rewrite length_take. lia.
    + rewrite length_take. intros k Hk.
      rewrite buffer_bit_take by lia. rewrite Hbits by lia.
      unfold pbuf. destruct (read_file_spec file old_src) as (buf & -> & Hbuf).
      cbn [fst]. destruct Hbuf as (slack0 & -> & _); [lia|].
      apply buffer_bit_app_l. lia.
Qed.
End FileRoundTrip.

(** ** The round trip of a file *)

(** The key that [generate_keys] prints for two distinct primes with a
    totient below [2^31] decrypts what it encrypts: for every file of bytes,
    whatever the spare bytes of the input buffers hold, when the two output
    buffers are clear on allocation. *)
Theorem file_round_trip_generated_key p q e n d file old_src old_src' :
  Z.prime p -> Z.prime q -> p <> q -> p < 2^32 -> q < 2^32 ->
  (p - 1) * (q - 1) < 2^31 ->
  generate_keys p q = Done (Keys e n d) ->
  Forall is_u8 file -> Z.of_nat (length file) < 2^31 - 9 ->
  exists cipher,
    encrypt_file file old_src zeroed e n = Done cipher /\
    decrypt_file cipher old_src' zeroed d n = Done file.
Proof.
  intros Hp Hq Hne Hp32 Hq32 Hf Hgen Hfile Hlen.
  pose proof (Z.prime_ge_2 p Hp) as Hp2. pose proof (Z.prime_ge_2 q Hq) as Hq2.
  assert (Hbits : bitlength p + bitlength q <= 32).
  { destruct (Z.le_gt_cases (bitlength p + bitlength q) 32) as [|Hgt]; [done|].
    apply (generate_keys_overflow p q) in Hgt; [|lia|lia].
    rewrite Hgt in Hgen. discriminate. }
  assert (Hf3 : 3 <= (p - 1) * (q - 1)).
  { destruct (Z.le_gt_cases 3 ((p - 1) * (q - 1))) as [|Hsmall]; [done|].
    assert ((p = 2 /\ q = 3) \/ (p = 3 /\ q = 2)) as [[-> ->]|[-> ->]] by nia;
      vm_compute in Hgen; discriminate. }
  destruct (generate_keys_spec p q ltac:(lia) ltac:(lia) Hbits ltac:(lia))
    as (e' & d' & Hgen' & He & Hgcd & Hd & Hinv & _).
  rewrite Hgen' in Hgen. injection Hgen as <- <- <-.
  pose proof (no_overflow_product p q ltac:(lia) ltac:(lia) Hbits) as Hn.
  apply file_round_trip; [nia|lia| |done|done].
  intros m Hm.
  destruct (bitsize_widths (p * q) ltac:(nia)) as (_ & _ & Hpow).
  apply rsa_block_round_trip; try done; lia.
Qed.

Lemma file_round_trip_generated_key_witness :
  exists cipher,
    encrypt_file [82; 83; 65; 32; 100; 101; 109] zeroed zeroed 3 2582299
    = Done cipher /\
    decrypt_file cipher zeroed zeroed 1719387 2582299
    = Done [82; 83; 65; 32; 100; 101; 109].
Proof.
  apply (file_round_trip_generated_key 1511 1709 3 2582299 1719387);
    try lia;
    try (apply prime_by_is_prime; [lia|vm_compute; reflexivity]).
  - vm_compute. reflexivity.
  - repeat constructor; unfold is_u8; lia.
  - simpl. lia.
Defined.

(** The same for any modulus from 2 on and any pair of exponents that undo
    each other on the values of a plaintext block. *)
Theorem file_round_trip_any_key n e d file old_src old_src' :
  2 <= n < 2^32 -> 0 <= e < 2^32 ->
  (forall m, 0 <= m < 2 ^ (bitsize n - 1) ->
             ab_mod_n (ab_mod_n m e n) d n = m) ->
  Forall is_u8 file -> Z.of_nat (length file) < 2^31 - 9 ->
  exists cipher,
    encrypt_file file old_src zeroed e n = Done cipher /\
    decrypt_file cipher old_src' zeroed d n = Done file.
Proof. intros Hn He Hkey. by apply file_round_trip. Qed.

Lemma file_round_trip_any_key_witness :
  exists cipher,
    encrypt_file [7; 200] zeroed zeroed 1 10 = Done cipher /\
    decrypt_file cipher zeroed zeroed 1 10 = Done [7; 200].
Proof.
  apply (file_round_trip_any_key 10 1 1); try lia.
  - intros m Hm. change (2 ^ (bitsize 10 - 1)) with 8 in Hm.
    assert (m = 0 \/ m = 1 \/ m = 2 \/ m = 3 \/ m = 4 \/ m = 5 \/ m = 6 \/ m = 7)
      as [->|[->|[->|[->|[->|[->|[->| ->]]]]]]] by lia; reflexivity.
  - repeat constructor; unfold is_u8; lia.
  - simpl. lia.
Defined.

(** The size of an encrypted file: the header, and for a file of [len]
    bytes cut into blocks of [s] bits at most [len + len / s + 5] bytes,
    which is within the [len + len / s + 8] bytes that are allocated. The
    encryption itself never fails and never leaves its buffers. *)
Theorem encrypt_file_size n e file old_src :
  2 <= n < 2^32 -> 0 <= e < 2^32 -> Z.of_nat (length file) < 2^31 ->
  let len := Z.of_nat (length file) in
  let s := bitsize n - 1 in
  exists cipher,
    encrypt_file file old_src zeroed e n = Done (le_encode 8 len ++ cipher) /\
    len + 1 <= Z.of_nat (length cipher) <= len + len / s + 5.
Proof.
  intros Hn He Hlen len s.
  destruct (encrypt_file_blocks n e Hn He file old_src Hlen)
    as (blocks & cipher & Henc & Hb & HB & Hcl & _ & Hcb & _).
  fold len s in Henc, HB, Hcl, Hcb.
  exists cipher. split; [exact Henc|]. split; [|exact Hcb].
  destruct (bitsize_widths n Hn) as (Hw & _). fold s in Hw.
  assert (blocks * s <= blocks * bitsize n)
    by (apply Z.mul_le_mono_nonneg_l; lia).
  dlia.
Qed.

Lemma encrypt_file_size_witness :
  exists cipher,
    encrypt_file [82; 83; 65] zeroed zeroed 3 2582299
    = Done (le_encode 8 (Z.of_nat (length [82; 83; 65])) ++ cipher) /\
    Z.of_nat (length [82; 83; 65]) + 1 <= Z.of_nat (length cipher)
    <= Z.of_nat (length [82; 83; 65])
       + Z.of_nat (length [82; 83; 65]) / (bitsize 2582299 - 1) + 5.
Proof. apply (encrypt_file_size 2582299 3 [82; 83; 65] zeroed); simpl; lia. Defined.

(** ** Empty files *)

(** A loop whose first round leaves it. *)
Lemma run_exit {St Res : Type} (body : St -> St + Res) p s r :
  body s = inr r -> run body p s = inr r.
Proof.
  intros E. induction p as [p IH|p IH|]; simpl.
  - by rewrite E.
  - by rewrite IH.
  - done.
Qed.

Lemma while_exit {St Res : Type} (body : St -> St + Res) bound s r :
  body s = inr r -> while body bound s = Some r.
Proof. intros E. unfold while. by rewrite (run_exit body bound s r E). Qed.

(** Encrypting an empty file gives nine bytes: the header for the length 0
    and the first byte of the output buffer as it was allocated, since
    [dest_text - destbuf + 1] bytes are written although no block was. *)
Theorem encrypt_file_empty old_src old_dst e n :
  encrypt_file [] old_src old_dst e n
  = Done ([0; 0; 0; 0; 0; 0; 0; 0] ++ [u8 (old_dst 0%nat)]).
Proof.
  unfold encrypt_file. change (read_file [] old_src) with (@nil Z, 0).
  cbv beta iota zeta.
  change (Z.quot 0 (u32 (bitsize n - 1))) with 0.
  change (u64 (0 + u32 (u64 (8 + 0)))) with 8.
  erewrite while_exit by reflexivity.
  reflexivity.
Qed.

(** Decrypting an empty file has no defined behaviour: [read_file] returns
    without a buffer, and the header is read through the unset pointer. *)
Theorem decrypt_file_empty old_src old_dst d n :
  decrypt_file [] old_src old_dst d n = Undefined.
Proof. reflexivity. Qed.

(** ** [read_file] and [write_file], call by call *)

(** The system calls [read] and [write] may transfer fewer bytes than they
    are asked for. [chunk i] is what call number [i] is able to transfer:
    a positive number of bytes, of which the call takes at most the count
    it was given; or 0, for which the call returns 0; or a negative value,
    for which the call fails and returns -1. *)
Definition transfer (chunk : nat -> Z) (i : nat) (bytcount : Z) : Z :=
  if chunk i <? 0 then -1
  else if chunk i =? 0 then 0
  else Z.min (chunk i) bytcount.

(** [if ((bytcount = remaining) > 2048) bytcount = 2048;] *)
Definition next_count (remaining : Z) : Z :=
  if 2048 <? remaining then 2048 else remaining.

(** The loop of [read_file]: [rd_done] bytes have been stored so far, by
    [rd_calls] calls; the pointer [c] is [rd_done] bytes into the buffer. *)
Record read_state := ReadSt { rd_calls : nat; rd_done : nat; rd_buf : list Z }.

Definition read_file_body (file : list Z) (chunk : nat -> Z) (st : read_state)
  : read_state + option (list Z) :=
  let remaining := Z.of_nat (length file) - Z.of_nat (rd_done st) in
  if 0 <? remaining then
    let result := transfer chunk (rd_calls st) (next_count remaining) in
    if result <=? 0 then inr None
    else
      let got := take (Z.to_nat result) (drop (rd_done st) file) in
      inl (ReadSt (S (rd_calls st)) (rd_done st + Z.to_nat result)
             (take (rd_done st) (rd_buf st) ++ got
              ++ drop (rd_done st + Z.to_nat result) (rd_buf st)))
  else inr (Some (rd_buf st)).

(** [read_file] for a file that is not empty: the buffer, or [None] for the
    return value -1. *)
Definition read_file_calls (file : list Z) (old : nat -> Z) (chunk : nat -> Z)
  : option (option (list Z)) :=
  while (read_file_body file chunk) (2^64)
        (ReadSt 0 0 (malloc old (Z.of_nat (length file) + 8))).

(** The loop of [write_file]: [wr_done] bytes of the buffer have been
    written by [wr_calls] calls, and [wr_out] is what the file received. *)
Record write_state := WriteSt { wr_calls : nat; wr_done : nat; wr_out : list Z }.

Definition write_file_body (buf : list Z) (len : Z) (chunk : nat -> Z)
  (st : write_state) : write_state + option (list Z) :=
  let remaining := len - Z.of_nat (wr_done st) in
  if 0 <? remaining then
    let result := transfer chunk (wr_calls st) (next_count remaining) in
    if result =? -1 then inr None
    else if result =? 0 then inr None
    else
      inl (WriteSt (S (wr_calls st)) (wr_done st + Z.to_nat result)
             (wr_out st ++ take (Z.to_nat result) (drop (wr_done st) buf)))
  else inr (Some (wr_out st)).

Definition write_file_calls (buf : list Z) (len : Z) (chunk : nat -> Z)
  : option (option (list Z)) :=
  while (write_file_body buf len chunk) (2^64) (WriteSt 0 0 []).

Lemma transfer_positive chunk i bytcount :
  1 <= chunk i -> 1 <= bytcount -> 1 <= transfer chunk i bytcount <= bytcount.
Proof.
  intros Hc Hb. unfold transfer.
  destruct (Z.ltb_spec (chunk i) 0), (Z.eqb_spec (chunk i) 0); lia.
Qed.

Lemma next_count_range remaining :
  0 < remaining -> 1 <= next_count remaining <= remaining.
Proof. intros H. unfold next_count. destruct (Z.ltb_spec 2048 remaining); lia. Qed.

(** However the calls of [read] cut the file, [read_file] returns the
    buffer with the whole file in front of the eight spare bytes. *)
Theorem read_file_short_reads file old chunk :
  file <> [] -> Z.of_nat (length file) < 2^63 ->
  (forall i, 1 <= chunk i) ->
  read_file_calls file old chunk = Some (Some (read_file file old).1).
Proof.
  intros Hne Hlen Hchunk.
  set (len := length file).
  set (mem0 := malloc old (Z.of_nat len + 8)).
  assert (Hl0 : length mem0 = (len + 8)%nat)
    by (unfold mem0; rewrite length_malloc; lia).
  assert (Hres : (read_file file old).1 = file ++ drop len mem0).
  { unfold read_file. fold len.
    destruct (Z.eqb_spec (Z.of_nat len) 0) as [E|_]; [|done].
    destruct file; [done|]. simpl in len. lia. }
  rewrite Hres. unfold read_file_calls. fold len mem0.
  destruct (while_rule (read_file_body file chunk)
              (fun st => (rd_done st <= len)%nat /\
                         rd_buf st = take (rd_done st) file
                                     ++ drop (rd_done st) mem0)
              (fun r => r = Some (file ++ drop len mem0))
              (fun st => Z.of_nat len - Z.of_nat (rd_done st)))
    with (bound := (2^64)%positive) (s := ReadSt 0 0 mem0)
    as (r & -> & ->); [| | |done].
  - intros [calls done buf]. cbn [rd_done rd_buf rd_calls]. intros [Hd ->].
    split; [lia|]. unfold read_file_body. cbn [rd_done rd_buf rd_calls].
    fold len.
    destruct (Z.ltb_spec 0 (Z.of_nat len - Z.of_nat done)) as [Hgo|Hstop].
    + pose proof (next_count_range _ Hgo) as Hn.
      pose proof (transfer_positive chunk calls
                    (next_count (Z.of_nat len - Z.of_nat done))
                    (Hchunk calls) ltac:(lia)) as Ht.
      set (result := transfer chunk calls _) in *.
      destruct (Z.leb_spec result 0); [lia|].
      cbn [rd_done rd_buf]. split; [|lia]. split; [lia|].
      rewrite take_app_length' by (rewrite length_take; lia).
      rewrite drop_app_ge by (rewrite length_take; lia).
      rewrite length_take, drop_drop.
      replace (done + (done + Z.to_nat result - done `min` length file))%nat
        with (done + Z.to_nat result)%nat by (fold len; lia).
      rewrite (assoc_L (++)). f_equal.
      rewrite take_take_drop. done.
    + assert (done = len) as -> by lia.
      by rewrite take_ge by (fold len; lia).
  - cbn [rd_done rd_buf]. split; [lia|]. by rewrite take_0, drop_0.
  - cbn [rd_done]. change (Z.pos (2^64)) with (2^64). lia.
Qed.

Lemma read_file_short_reads_witness :
  read_file_calls [82; 83; 65] zeroed (fun i => Z.of_nat i + 1)
  = Some (Some (read_file [82; 83; 65] zeroed).1).
Proof.
  apply (read_file_short_reads [82; 83; 65] zeroed (fun i => Z.of_nat i + 1));
    [done|simpl; lia|intros i; lia].
Defined.

(** A call of [read] that returns 0 or -1 makes [read_file] fail. *)
Theorem read_file_read_error file old chunk :
  file <> [] -> chunk 0%nat <= 0 ->
  read_file_calls file old chunk = Some None.
Proof.
  intros Hne Hc. apply while_exit. unfold read_file_body. cbn [rd_done rd_calls].
  destruct (Z.ltb_spec 0 (Z.of_nat (length file) - Z.of_nat 0)) as [_|H].
  - unfold transfer.
    destruct (Z.ltb_spec (chunk 0%nat) 0), (Z.eqb_spec (chunk 0%nat) 0);
      try lia; done.
  - destruct file; [done|]. simpl in H. lia.
Qed.

Lemma read_file_read_error_witness :
  read_file_calls [82; 83; 65] zeroed (fun _ => -1) = Some None.
Proof. apply (read_file_read_error [82; 83; 65] zeroed (fun _ => -1)); [done|lia]. Defined.

(** However the calls of [write] cut the buffer, the file receives the
    first [len] bytes of it, in order. *)
Theorem write_file_short_writes (buf : list Z) len chunk :
  0 <= len <= Z.of_nat (length buf) -> len < 2^63 ->
  (forall i, 1 <= chunk i) ->
  write_file_calls buf len chunk = Some (Some (take (Z.to_nat len) buf)).
Proof.
  intros Hlen Hoff Hchunk. unfold write_file_calls.
  destruct (while_rule (write_file_body buf len chunk)
              (fun st => Z.of_nat (wr_done st) <= len /\
                         wr_out st = take (wr_done st) buf)
              (fun r => r = Some (take (Z.to_nat len) buf))
              (fun st => len - Z.of_nat (wr_done st)))
    with (bound := (2^64)%positive) (s := WriteSt 0 0 [])
    as (r & -> & ->); [| | |done].
  - intros [calls done out]. cbn [wr_done wr_out wr_calls]. intros [Hd ->].
    split; [lia|]. unfold write_file_body. cbn [wr_done wr_out wr_calls].
    destruct (Z.ltb_spec 0 (len - Z.of_nat done)) as [Hgo|Hstop].
    + pose proof (next_count_range _ Hgo) as Hn.
      pose proof (transfer_positive chunk calls
                    (next_count (len - Z.of_nat done))
                    (Hchunk calls) ltac:(lia)) as Ht.
      set (result := transfer chunk calls _) in *.
      destruct (Z.eqb_spec result (-1)); [lia|].
      destruct (Z.eqb_spec result 0); [lia|].
      cbn [wr_done wr_out]. split; [|lia]. split; [lia|].
      by rewrite take_take_drop.
    + f_equal. f_equal. lia.
  - cbn [wr_done wr_out]. split; [lia|done].
  - cbn [wr_done]. change (Z.pos (2^64)) with (2^64). lia.
Qed.

Lemma write_file_short_writes_witness :
  write_file_calls [1; 2; 3; 4; 5] 4 (fun _ => 3) = Some (Some (take (Z.to_nat 4) [1; 2; 3; 4; 5])).
Proof.
  apply (write_file_short_writes [1; 2; 3; 4; 5] 4 (fun _ => 3));
    [simpl; lia|lia|intros; lia].
Defined.

(** ** [readbits] and [writebits] *)

(** [readbits] returns the [n] bits under the cursor, the first one as
    bit 0, and leaves the cursor [n] bits further. *)
Theorem readbits_reads_field mem c n :
  cursor_ok c -> 0 <= n <= 32 ->
  bit_index c + n <= 8 * Z.of_nat (length mem) ->
  exists v,
    readbits mem c n = Some (v, seek c n) /\ 0 <= v < 2^n /\
    forall j, 0 <= j < n -> Z.testbit v j = buffer_bit mem (bit_index c + j).
Proof.
  intros Hc Hn Hmem.
  destruct (readbits_spec mem c n Hc Hn Hmem) as (v & Hv & Hbits).
  exists v. split; [exact Hv|]. split.
  - by apply (readbits_range mem c n v (seek c n)).
  - intros j Hj. rewrite Hbits by lia. by destruct (Z.ltb_spec j n); [|lia].
Qed.

Lemma readbits_reads_field_witness :
  exists v,
    readbits [172; 13] (Cursor 0 3) 9 = Some (v, seek (Cursor 0 3) 9) /\
    0 <= v < 2^9 /\
    forall j, 0 <= j < 9 ->
      Z.testbit v j = buffer_bit [172; 13] (bit_index (Cursor 0 3) + j).
Proof.
  apply (readbits_reads_field [172; 13] (Cursor 0 3) 9);
    [unfold cursor_ok; simpl; lia|lia|unfold bit_index; simpl; lia].
Defined.

(** [writebits] keeps the length of the buffer, leaves the cursor [n] bits
    further, sets the bits of the field where the value has them set and
    clears no bit: every bit of the buffer is or-ed with the bit of the
    value that falls on it. *)
Theorem writebits_ors_field mem c n value :
  cursor_ok c -> 0 <= n <= 32 ->
  bit_index c + n <= 8 * Z.of_nat (length mem) ->
  exists mem',
    writebits mem c n value = Some (mem', seek c n) /\
    length mem' = length mem /\
    forall k, 0 <= k ->
      buffer_bit mem' k =
      buffer_bit mem k ||
      ((bit_index c <=? k) && (k <? bit_index c + n) &&
       Z.testbit value (k - bit_index c)).
Proof.
  intros Hc Hn Hmem.
  destruct (writebits_spec mem c n value Hc Hn Hmem) as (mem' & H1 & H2 & _ & H3).
  by exists mem'.
Qed.

Lemma writebits_ors_field_witness :
  exists mem',
    writebits [255; 0; 0] (Cursor 0 6) 5 21 = Some (mem', seek (Cursor 0 6) 5) /\
    length mem' = length [255; 0; 0] /\
    forall k, 0 <= k ->
      buffer_bit mem' k =
      buffer_bit [255; 0; 0] k ||
      ((bit_index (Cursor 0 6) <=? k) && (k <? bit_index (Cursor 0 6) + 5) &&
       Z.testbit 21 (k - bit_index (Cursor 0 6))).
Proof.
  apply (writebits_ors_field [255; 0; 0] (Cursor 0 6) 5 21);
    [unfold cursor_ok; simpl; lia|lia|unfold bit_index; simpl; lia].
Defined.

(** Fields of any values written into a cleared buffer are read back
    reduced to their widths. *)
Theorem bit_packing_low_bits fields len :
  Forall (fun nv => 0 <= nv.1 <= 32) fields ->
  total_width fields <= 8 * Z.of_nat len ->
  packing_round_trip fields len ((fun nv => nv.2 mod 2 ^ nv.1) <$> fields).
Proof. apply packing_round_trip_low_bits. Qed.

Lemma bit_packing_low_bits_witness :
  packing_round_trip [(1, 2); (0, 7); (4, 255)] 1
                     ((fun nv => nv.2 mod 2 ^ nv.1) <$> [(1, 2); (0, 7); (4, 255)]).
Proof.
  apply (bit_packing_low_bits [(1, 2); (0, 7); (4, 255)] 1).
  - repeat constructor; simpl; lia.
  - simpl. lia.
Defined.

(** ** The header and the sanity check *)

(** The eight bytes that [encrypt_file] writes for a length are loaded back
    as that length, whatever follows them. *)
Theorem header_round_trip x rest :
  - 2^63 <= x < 2^63 -> load_off_t (le_encode 8 x ++ rest) = Some x.
Proof. apply load_off_t_header. Qed.

Lemma header_round_trip_witness :
  load_off_t (le_encode 8 7 ++ [100; 93]) = Some 7.
Proof. apply (header_round_trip 7 [100; 93]). lia. Defined.

(** A file that starts with a negative length is rejected as corrupted,
    whatever follows the header and whatever key is used. *)
Theorem negative_header_rejected len rest old_src old_dst d n :
  - 2^63 <= len < 0 ->
  decrypt_file (le_encode 8 len ++ rest) old_src old_dst d n
  = Fail CorruptFileError.
Proof. apply decrypt_file_negative_header. Qed.

Lemma negative_header_rejected_witness :
  decrypt_file (le_encode 8 (-1) ++ [1; 2; 3]) zeroed zeroed 1719387 2582299
  = Fail CorruptFileError.
Proof.
  apply (negative_header_rejected (-1) [1; 2; 3] zeroed zeroed 1719387 2582299).
  lia.
Defined.

(** For lengths below [2^31 - 9] and files below [2^31] bytes, the check
    rejects exactly the files whose data is more than [len / dstbits + 9]
    bytes longer or shorter than the length in the header. *)
Theorem sanity_check_tolerance len buflen dstbits :
  0 <= len < 2^31 - 9 -> 0 <= buflen < 2^31 -> 1 <= dstbits ->
  (corrupted len buflen dstbits = true <->
   len / dstbits + 9 < Z.abs (len - (buflen - 8))).
Proof.
  intros Hlen Hbuf Hbits. rewrite corrupted_in_range by done.
  apply Z.ltb_lt.
Qed.

Lemma sanity_check_tolerance_witness :
  corrupted 7 17 21 = true <-> 7 / 21 + 9 < Z.abs (7 - (17 - 8)).
Proof. apply (sanity_check_tolerance 7 17 21); lia. Defined.

(** ** The modulus of a printed key *)

(** The modulus that is printed for factors from 2 on is their product: it
    did not wrap around. *)
Theorem generate_keys_modulus_exact p q e n d :
  2 <= p < 2^32 -> 2 <= q < 2^32 ->
  generate_keys p q = Done (Keys e n d) -> n = p * q.
Proof.
  intros Hp Hq H.
  assert (Hbits : bitlength p + bitlength q <= 32).
  { destruct (Z.le_gt_cases (bitlength p + bitlength q) 32) as [|Hgt]; [done|].
    apply (generate_keys_overflow p q Hp Hq) in Hgt.
    rewrite Hgt in H. discriminate. }
  pose proof (no_overflow_product p q Hp Hq Hbits) as Hn.
  unfold generate_keys in H.
  destruct (32 <? bitsize p + bitsize q); [discriminate|].
  destruct (while _ _ _) as [[[e' d']|]|]; try discriminate.
  destruct (e' =? _); [discriminate|].
  injection H as _ <- _. apply u32_small. nia.
Qed.

Lemma generate_keys_modulus_exact_witness : 2582299 = 1511 * 1709.
Proof.
  apply (generate_keys_modulus_exact 1511 1709 3 2582299 1719387); try lia.
  vm_compute. reflexivity.
Defined.

(** ** What every run of the two commands keeps *)

(** The rule for a loop with an invariant alone: whatever the loop is left
    with satisfies what the leaving rounds establish. *)
Lemma iterate_inv {St Res : Type} (body : St -> St + Res)
  (Inv : St -> Prop) (Post : Res -> Prop) :
  (forall s, Inv s ->
     match body s with inl s' => Inv s' | inr r => Post r end) ->
  forall k s r, Inv s -> iterate body k s = inr r -> Post r.
Proof.
  intros Hround k. induction k as [|k IH]; intros s r HI E; simpl in E.
  - discriminate.
  - specialize (Hround s HI). destruct (body s) as [s'|r'].
    + by apply (IH s').
    + by injection E as <-.
Qed.

Lemma while_inv {St Res : Type} (body : St -> St + Res)
  (Inv : St -> Prop) (Post : Res -> Prop) bound s r :
  (forall s, Inv s ->
     match body s with inl s' => Inv s' | inr r => Post r end) ->
  Inv s -> while body bound s = Some r -> Post r.
Proof.
  intros Hround HI E. unfold while in E. rewrite run_iterate in E.
  destruct (iterate body (Pos.to_nat bound) s) as [|r'] eqn:Ei; [discriminate|].
  injection E as <-. by eapply (iterate_inv body Inv Post Hround).
Qed.

Lemma writebits_loop_length n : forall mem counter value c mem' c',
  writebits_loop mem n counter value c = Some (mem', c') ->
  length mem' = length mem.
Proof.
  induction n as [|n IH]; intros mem counter value c mem' c' E.
  - by injection E as <- _.
  - cbn [writebits_loop] in E.
    destruct (mem !! cur_pos c) as [byte|];
      cbn [mbind option_bind] in E; [|discriminate].
    destruct (c_shr value counter) as [low|];
      cbn [mbind option_bind] in E; [|discriminate].
    destruct (c_shl (Z.land low 1) (cur_bit c)) as [bit|];
      cbn [mbind option_bind] in E; [|discriminate].
    apply IH in E. by rewrite length_insert in E.
Qed.

Lemma crypt_block_length src rbits wbits key n st st' :
  crypt_block src rbits wbits key n st = Some st' ->
  length (x_mem st') = length (x_mem st).
Proof.
  unfold crypt_block. intros E.
  destruct (readbits src (x_src st) rbits) as [[v c]|];
    cbn [mbind option_bind] in E; [|discriminate].
  destruct (writebits (x_mem st) (x_dst st) wbits (ab_mod_n v key n))
    as [[mem c']|] eqn:Ew; cbn [mbind option_bind] in E; [|discriminate].
  injection E as <-. cbn [x_mem]. by apply writebits_loop_length in Ew.
Qed.

(** Whenever [decrypt_file] succeeds, for any file, any key and any content
    of fresh memory, the file it writes has exactly the length that the
    header announces, and this length is not negative. *)
Theorem decrypt_file_length file old_src old_dst d n out :
  decrypt_file file old_src old_dst d n = Done out ->
  exists len,
    load_off_t (read_file file old_src).1 = Some len /\ 0 <= len /\
    Z.of_nat (length out) = len.
Proof.
  unfold decrypt_file.
  destruct (read_file file old_src) as [buf buflen]. cbn [fst].
  destruct (load_off_t buf) as [len|] eqn:Eload; [|discriminate].
  destruct (corrupted len buflen (u32 (bitsize n - 1))) eqn:Ec; [discriminate|].
  assert (Hlen : 0 <= len).
  { unfold corrupted in Ec. destruct (Z.ltb_spec len 0); [done|lia]. }
  assert (Hrange : len < 2^63).
  { unfold load_off_t in Eload. destruct (8 <=? Z.of_nat (length buf)); [|done].
    injection Eload as <-. unfold i64, signed.
    pose proof (Z.mod_pos_bound (le_decode (take 8 buf) + 2^(64-1)) (2^64)). lia. }
  rewrite (u64_small (len + 8)) by lia.
  destruct (while _ _ _) as [[st|]|] eqn:Ew; try discriminate.
  intros [= <-]. exists len. split; [done|]. split; [done|].
  set (mem0 := malloc old_dst (len + 8)) in *.
  assert (Hl : length (x_mem st) = length mem0).
  { refine (while_inv _ (fun s => length (x_mem s) = length mem0)
              (fun r => forall s, r = Some s -> length (x_mem s) = length mem0)
              _ _ _ _ _ Ew st eq_refl); [|done].
    intros s Hs. unfold decrypt_body.
    destruct (decide _); [|by intros ? [= <-]].
    destruct (crypt_block _ _ _ _ _ s) as [s'|] eqn:Eb; [|done].
    apply crypt_block_length in Eb. lia. }
  unfold mem0 in Hl.
  rewrite length_take, Hl, length_malloc. lia.
Qed.

Lemma decrypt_file_length_witness :
  exists len,
    load_off_t (read_file [1; 0; 0; 0; 0; 0; 0; 0; 3; 0] zeroed).1 = Some len /\
    0 <= len /\ Z.of_nat (length [7]) = len.
Proof.
  apply (decrypt_file_length [1; 0; 0; 0; 0; 0; 0; 0; 3; 0] zeroed zeroed 3 10).
  vm_compute. reflexivity.
Defined.

(** Whenever [encrypt_file] succeeds, for any key and any content of fresh
    memory, what it writes starts with a header that [decrypt_file] loads as
    the exact length of the input, followed by at least one byte. *)
Theorem encrypt_file_header file old_src old_dst e n out :
  Z.of_nat (length file) < 2^63 ->
  encrypt_file file old_src old_dst e n = Done out ->
  load_off_t out = Some (Z.of_nat (length file)) /\ (9 <= length out)%nat.
Proof.
  intros Hlen. unfold encrypt_file.
  destruct (read_file_spec file old_src) as (buf & -> & _).
  cbv beta iota zeta.
  destruct (while _ _ _) as [[st|]|]; try discriminate.
  destruct (decide _) as [Hfit|]; [|discriminate].
  intros [= <-]. split.
  - apply load_off_t_header. lia.
  - cbn [length app]. rewrite length_take. lia.
Qed.

Lemma encrypt_file_header_witness :
  load_off_t [3; 0; 0; 0; 0; 0; 0; 0; 32; 97; 222; 50; 0]
  = Some (Z.of_nat (length [82; 83; 65])) /\
  (9 <= length [3; 0; 0; 0; 0; 0; 0; 0; 32; 97; 222; 50; 0])%nat.
Proof.
  apply (encrypt_file_header [82; 83; 65] zeroed zeroed 9 4292870399).
  - simpl. lia.
  - vm_compute. reflexivity.
Defined.

(** ** Factors that are not primes *)

(** The factor 1 is not rejected: for every 32-bit [q], [generate_keys]
    prints the key [e = 2], [n = q], [d = 0]. The totient is 0, the search
    loop does not run, and the test after it compares [e = 2] with 0. *)
Theorem generate_keys_factor_one q :
  0 <= q < 2^32 -> generate_keys 1 q = Done (Keys 2 q 0).
Proof.
  intros Hq. unfold generate_keys. change (bitsize 1) with 0.
  destruct (Z.ltb_spec 32 (0 + bitsize q)) as [Hbig|_].
  { destruct (bitsize_range q Hq); lia. }
  change (u32 (1 - 1)) with 0.
  change (u32 (0 * u32 (q - 1))) with 0.
  erewrite while_exit by reflexivity.
  cbv beta iota. change (2 =? 0) with false. cbv iota.
  by rewrite Z.mul_1_l, u32_small.
Qed.

Lemma generate_keys_factor_one_witness :
  generate_keys 1 2147483648 = Done (Keys 2 2147483648 0).
Proof. apply (generate_keys_factor_one 2147483648). lia. Defined.
